(** * The position-broadcast server of [server.js]

    A shallow embedding of the WebSocket game server: the global registry
    [players], the id counter [nextPlayerId], the set [wss.clients], and the
    three listeners registered by the ['connection'] handler
    (['message'], ['close'], ['error']).

    Modelling conventions.
    - A listener is a program of type [Js]: it reads and assigns to the
      server state, writes frames ([ws.send]) and may complete abruptly
      with a JavaScript exception.  An exception that escapes a listener
      is not caught anywhere in [server.js].
    - JavaScript numbers that hold integers ([nextPlayerId], [x], [y]) are
      integers of [Z]; such numbers are exact up to 2^53, where [+ 1]
      stops counting (see [increment]).
    - [JSON.stringify (obj)] followed by [send] is recorded as the object
      that is serialised, at the moment it is serialised.
    - [JSON.parse] is a builtin, not code of the server: an inbound frame is
      represented by what [JSON.parse] makes of it.
    - [console.log/warn/error] only write to the process log; the model
      keeps what evaluating their arguments can do (raise), not the text. *)

From Stdlib Require Import Ascii.
From stdpp Require Import base strings pretty list list_numbers gmap.

Local Open Scope Z_scope.

(** ** Game configuration (lines 3-6) *)

Definition WORLD_SIZE : Z := 500.
Definition PLAYER_SIZE : Z := 20.
Definition MOVEMENT_SPEED : Z := 5.

(** ** Data *)

(** The object stored in [players] under a player id (lines 38-44). *)
Module Player.
Record t : Type := mk {
  x : Z;
  y : Z;
  color : string;
  name : string;
  id : string
}.
End Player.

(** [WebSocket.readyState]. *)
Inductive ReadyState : Type := CONNECTING | OPEN | CLOSING | CLOSED.

Global Instance ReadyState_eq_dec : EqDecision ReadyState.
Proof. solve_decision. Defined.

(** A socket object: the [id] attached by the connection handler (line 46)
    and the transport's [readyState].  A socket is referred to by its handle,
    its index in the list of all socket objects created so far; [!==] on
    sockets is inequality of handles. *)
Record WebSocket : Type := {
  ws_id : string;
  readyState : ReadyState
}.

#[local] Set Warnings "-register-all".

(** Values produced by [JSON.parse], plus [undefined] for absent
    properties.  Numbers carry their literal: the server never inspects one.
    An object lists its own properties, each key once. *)
Inductive JsValue : Type :=
| undefined
| null
| JBoolean (b : bool)
| JNumber (literal : string)
| JString (s : string)
| JArray (elems : list JsValue)
| JObject (props : list (string * JsValue)).

(** An inbound frame, as [JSON.parse] sees it: a [SyntaxError], or a value. *)
Inductive Frame : Type :=
| malformed (raw : string)
| json (v : JsValue).

(** The objects handed to [JSON.stringify], one constructor per [type].
    [playerState] and [player] are what [players[playerId]] holds when the
    frame is built: an object, or nothing. *)
Inductive ServerMsg : Type :=
| init (playerId : string) (playerState : option Player.t)
       (worldSize playerSize : Z)
| currentPlayers (snapshot : gmap string Player.t)
| playerJoined (player : option Player.t)
| playerMoved (playerId : string) (x y : Z)
| chat (sender : string) (message : JsValue)
| playerLeft (playerId : string).

(** A frame written to the socket with the given handle. *)
Definition Send : Type := (nat * ServerMsg)%type.

(** The state of the process: the two globals of lines 15-16, every socket
    object created so far, and [wss.clients] in insertion order. *)
Record Server : Type := {
  players : gmap string Player.t;
  nextPlayerId : Z;
  sockets : list WebSocket;
  clients : list nat
}.

Definition initial : Server :=
  {| players := ∅; nextPlayerId := 1; sockets := []; clients := [] |}.

(** Field updates. *)
Definition with_players (f : gmap string Player.t → gmap string Player.t)
    (σ : Server) : Server :=
  {| players := f (players σ); nextPlayerId := nextPlayerId σ;
     sockets := sockets σ; clients := clients σ |}.

Definition with_nextPlayerId (n : Z) (σ : Server) : Server :=
  {| players := players σ; nextPlayerId := n;
     sockets := sockets σ; clients := clients σ |}.

(** A new socket object, which the server adds to [wss.clients]. *)
Definition with_new_socket (s : WebSocket) (σ : Server) : Server :=
  {| players := players σ; nextPlayerId := nextPlayerId σ;
     sockets := sockets σ ++ [s];
     clients := clients σ ++ [length (sockets σ)] |}.

Definition with_readyState (ws : nat) (r : ReadyState) (σ : Server) : Server :=
  {| players := players σ; nextPlayerId := nextPlayerId σ;
     sockets := alter (λ s, {| ws_id := ws_id s; readyState := r |}) ws
                      (sockets σ);
     clients := clients σ |}.

Definition without_client (ws : nat) (σ : Server) : Server :=
  {| players := players σ; nextPlayerId := nextPlayerId σ;
     sockets := sockets σ;
     clients := filter (λ c, c ≠ ws) (clients σ) |}.

(** ** Listener computations *)

Inductive JsError : Type := SyntaxError | ReferenceError | TypeError.

(** How a listener completes: normally, or with an exception; in both cases
    with the state it has reached and the frames it has sent so far. *)
Inductive Completion (A : Type) : Type :=
| Normal (a : A) (σ : Server) (out : list Send)
| Throw (e : JsError) (σ : Server) (out : list Send).
Arguments Normal {A} a σ out.
Arguments Throw {A} e σ out.

(** A listener is a program over the effects of the server: it reads the
    state, assigns to it, writes a frame to a socket, or raises.  One
    program has two readings: [run], what it leaves behind, and [journal],
    the assignments and frames in the order in which they happen. *)
Inductive Js (A : Type) : Type :=
| Return (a : A)
| Raise (e : JsError)
| Read {B : Type} (f : Server → B) (k : B → Js A)
| Assign (f : Server → Server) (k : Js A)
| Emit (client : nat) (msg : ServerMsg) (k : Js A).
Arguments Return {A} a.
Arguments Raise {A} e.
Arguments Read {A B} f k.
Arguments Assign {A} f k.
Arguments Emit {A} client msg k.

Fixpoint run {A} (m : Js A) (σ : Server) : Completion A :=
  match m with
  | Return a => Normal a σ []
  | Raise e => Throw e σ []
  | Read f k => run (k (f σ)) σ
  | Assign f k => run k (f σ)
  | Emit client msg k =>
      match run k σ with
      | Normal a σ' out => Normal a σ' ((client, msg) :: out)
      | Throw e σ' out => Throw e σ' ((client, msg) :: out)
      end
  end.

Coercion run : Js >-> Funclass.

(** One effect of a listener. *)
Inductive Effect : Type :=
| assigned_to (σ : Server)
| written_to (client : nat) (msg : ServerMsg).

(** The assignments (each with the state it produces) and the frames of a
    listener started in [σ], in program order. *)
Fixpoint journal {A} (m : Js A) (σ : Server) : list Effect :=
  match m with
  | Return _ | Raise _ => []
  | Read f k => journal (k (f σ)) σ
  | Assign f k => assigned_to (f σ) :: journal k (f σ)
  | Emit client msg k => written_to client msg :: journal k σ
  end.

Fixpoint then_ {A B} (f : A → Js B) (m : Js A) : Js B :=
  match m with
  | Return a => f a
  | Raise e => Raise e
  | Read g k => Read g (λ b, then_ f (k b))
  | Assign g k => Assign g (then_ f k)
  | Emit client msg k => Emit client msg (then_ f k)
  end.

Global Instance Js_ret : MRet Js := λ A a, Return a.

Global Instance Js_bind : MBind Js := λ A B f m, then_ f m.

Definition throw {A} (e : JsError) : Js A := Raise e.
Definition gets {A} (f : Server → A) : Js A := Read f Return.
Definition modify (f : Server → Server) : Js unit := Assign f (Return tt).

(** [client.send (JSON.stringify msg)]. *)
Definition send (client : nat) (msg : ServerMsg) : Js unit :=
  Emit client msg (Return tt).

(** [client.readyState === WebSocket.OPEN]. *)
Definition is_OPEN (client : nat) : Js bool :=
  gets (λ σ, match sockets σ !! client with
             | Some s => bool_decide (readyState s = OPEN)
             | None => false
             end).

Fixpoint forEach (l : list nat) (f : nat → Js unit) : Js unit :=
  match l with
  | [] => mret tt
  | client :: l => f client ;; forEach l f
  end.

(** [wss.clients.forEach (f)]: the members, in insertion order. *)
Definition wss_clients_forEach (f : nat → Js unit) : Js unit :=
  members ← gets clients;
  forEach members f.

(** ** JavaScript operators used by the handlers *)

(** [v === 'lit']. *)
Definition strict_eq (v : JsValue) (lit : string) : bool :=
  match v with
  | JString s => bool_decide (s = lit)
  | _ => false
  end.

Fixpoint own_property (props : list (string * JsValue)) (key : string)
  : option JsValue :=
  match props with
  | [] => None
  | (k, v) :: props => if bool_decide (k = key) then Some v
                       else own_property props key
  end.

(** [v.key] for the keys the server reads ([type], [direction],
    [message]): none of them exists on a builtin prototype, so the result
    is the own property of an object and [undefined] otherwise; reading a
    property of [null] or [undefined] raises a [TypeError]. *)
Definition Get (v : JsValue) (key : string) : Js JsValue :=
  match v with
  | undefined | null => throw TypeError
  | JObject props => mret (default undefined (own_property props key))
  | _ => mret undefined
  end.

(** Whether converting [v] to a string (a template-literal substitution)
    raises.  An object from [JSON.parse] with an own [toString] property has
    a non-callable [toString] and the inherited [valueOf] returns the object:
    [TypeError].  Without it the inherited [toString] answers.  An array
    joins the conversions of its elements ([null] and [undefined] count as
    the empty string), one call deeper for each level of nesting.  The
    function describes conversions that the engine's stack has room for;
    what an array nested deeper than that does ([RangeError]) is not
    described, and the statements that rest on [false] here are about
    values that are [flat]. *)
Fixpoint ToString_raises (v : JsValue) : bool :=
  match v with
  | JObject props => bool_decide ("toString" ∈ props.*1)
  | JArray elems => existsb ToString_raises elems
  | _ => false
  end.

(** Evaluating [`${v}`] for its effect. *)
Definition template (v : JsValue) : Js unit :=
  if ToString_raises v then throw TypeError else mret tt.

(** A [let]/[const] binding of a block: [uninitialized] until its
    declaration has been evaluated; reading it before is a
    [ReferenceError]. *)
Inductive Binding (A : Type) : Type :=
| uninitialized
| initialized (a : A).
Arguments uninitialized {A}.
Arguments initialized {A} a.

Definition read {A} (b : Binding A) : Js A :=
  match b with
  | uninitialized => throw ReferenceError
  | initialized a => mret a
  end.

(** [s.split (sep)] for a one-character separator. *)
Fixpoint split (sep : ascii) (s : string) : list string :=
  match s with
  | EmptyString => [EmptyString]
  | String c s =>
      if bool_decide (c = sep) then EmptyString :: split sep s
      else match split sep s with
           | piece :: pieces => String c piece :: pieces
           | [] => [String c EmptyString]
           end
  end.

(** [JSON.parse (message)] inside [try]. *)
Definition JSON_parse (message : Frame) : JsError + JsValue :=
  match message with
  | malformed _ => inl SyntaxError
  | json v => inr v
  end.

(** ** The handlers *)

(** The largest integer up to which every integer is a JavaScript number. *)
Definition MAX_EXACT : Z := 2 ^ 53.

(** [n + 1] on a JavaScript number that holds an integer between 0 and
    2^53, as the counter always does: exact below 2^53; at 2^53 the sum is
    not a number of the format and rounds back to 2^53. *)
Definition increment (n : Z) : Z :=
  if decide (n < MAX_EXACT) then n + 1 else n.

(** [`player-${n}`]. *)
Definition playerId_of (n : Z) : string := "player-" +:+ pretty n.

(** [`Player ${playerId.split('-')[1]}`] (line 32); a missing element is
    [undefined] and prints as such. *)
Definition playerName_of (playerId : string) : string :=
  "Player " +:+ default "undefined" (split "-" playerId !! 1%nat).

(** The position computed by the inner [switch] (lines 89-105). *)
Definition resolve (direction : JsValue) (player : Player.t) : Z * Z :=
  let newX := Player.x player in
  let newY := Player.y player in
  if strict_eq direction "w" then
    (newX, Z.max 0 (Player.y player - MOVEMENT_SPEED))
  else if strict_eq direction "a" then
    (Z.max 0 (Player.x player - MOVEMENT_SPEED), newY)
  else if strict_eq direction "s" then
    (newX, Z.min (WORLD_SIZE - PLAYER_SIZE) (Player.y player + MOVEMENT_SPEED))
  else if strict_eq direction "d" then
    (Z.min (WORLD_SIZE - PLAYER_SIZE) (Player.x player + MOVEMENT_SPEED), newY)
  else (newX, newY).

(** [player.x = newX; player.y = newY] on the object held by the registry. *)
Definition moved (player : Player.t) (newX newY : Z) : Player.t :=
  Player.mk newX newY (Player.color player) (Player.name player)
            (Player.id player).

(** The ['connection'] listener (lines 28-73).  The transport has created
    the socket, [OPEN], and added it to [wss.clients] before the listener
    runs; the socket enters the model where the listener attaches its [id]
    (line 46), nothing observing it earlier.  [playerColor] is the value of
    [getRandomColor ()]. *)
Definition onConnection (playerColor : string) : Js unit :=
  ws ← gets (λ σ, length (sockets σ));
  n ← gets nextPlayerId;
  modify (with_nextPlayerId (increment n));;
  let playerId := playerId_of n in
  let playerName := playerName_of playerId in
  let initialX := WORLD_SIZE / 2 - PLAYER_SIZE / 2 in
  let initialY := WORLD_SIZE / 2 - PLAYER_SIZE / 2 in
  modify (with_players
            <[playerId := Player.mk initialX initialY playerColor playerName
                                    playerId]>);;
  modify (with_new_socket {| ws_id := playerId; readyState := OPEN |});;
  playerState ← gets (λ σ, players σ !! playerId);
  send ws (init playerId playerState WORLD_SIZE PLAYER_SIZE);;
  registry ← gets players;
  send ws (currentPlayers registry);;
  wss_clients_forEach (λ client,
    open ← is_OPEN client;
    if bool_decide (client ≠ ws) && open
    then player ← gets (λ σ, players σ !! playerId);
         send client (playerJoined player)
    else mret tt).

(** [case 'movement'] (lines 86-124); [player] is the registry's object
    under [ws.id]. *)
Definition case_movement (ws_id : string) (parsedMessage : JsValue)
  : Js unit :=
  player ← gets (λ σ, players σ !! ws_id);
  match player with
  | None => mret tt
  | Some player =>
      direction ← Get parsedMessage "direction";
      let '(newX, newY) := resolve direction player in
      if bool_decide (newX ≠ Player.x player)
         || bool_decide (newY ≠ Player.y player)
      then
        let player := moved player newX newY in
        modify (with_players <[ws_id := player]>);;
        wss_clients_forEach (λ client,
          open ← is_OPEN client;
          if (open : bool)
          then send client (playerMoved ws_id (Player.x player)
                                        (Player.y player))
          else mret tt)
      else mret tt
  end.

(** [case 'chat'] (lines 126-138), given the state of the binding
    [player] of the enclosing [switch] block. *)
Definition case_chat (player : Binding (option Player.t))
    (parsedMessage : JsValue) : Js unit :=
  player ← read player;
  sender ← match player with
           | Some player => mret (Player.name player)
           | None => throw TypeError
           end;
  message ← Get parsedMessage "message";
  template message;;
  wss_clients_forEach (λ client,
    open ← is_OPEN client;
    if (open : bool) then send client (chat sender message) else mret tt).

(** The ['message'] listener (lines 75-144).  [const player] is declared in
    the clause of ['movement'] and scoped to the whole [switch] block: when
    the [switch] enters at [case 'chat'] the declaration has not been
    evaluated and the binding is [uninitialized]. *)
Definition onMessage (ws_id : string) (message : Frame) : Js unit :=
  match JSON_parse message with
  | inl _ => mret tt
  | inr parsedMessage =>
      type ← Get parsedMessage "type";
      if strict_eq type "movement" then case_movement ws_id parsedMessage
      else if strict_eq type "chat" then case_chat uninitialized parsedMessage
      else template type
  end.

(** The ['close'] listener (lines 146-159). *)
Definition onClose (ws_id : string) : Js unit :=
  modify (with_players (delete ws_id));;
  wss_clients_forEach (λ client,
    open ← is_OPEN client;
    if (open : bool) then send client (playerLeft ws_id) else mret tt).

(** The ['error'] listener (lines 161-163) only logs. *)
Definition onError (ws_id : string) : Js unit := mret tt.

(** ** The transport and the event loop *)

(** What the WebSocket library delivers to the process. *)
Inductive Event : Type :=
| connection (playerColor : string)
| message (ws : nat) (data : Frame)
| closing (ws : nat)
| close (ws : nat)
| error (ws : nat).

(** On the way to ['close'] the library marks the socket [CLOSED] and takes
    it out of [wss.clients]. *)
Definition transport_close (ws : nat) : Js unit :=
  modify (with_readyState ws CLOSED);;
  modify (without_client ws).

(** The listeners of a socket exist once it has been created. *)
Definition listener (ws : nat) (k : WebSocket → Js unit) : Js unit :=
  socket ← gets (λ σ, sockets σ !! ws);
  match socket with
  | Some s => k s
  | None => mret tt
  end.

Definition step (ev : Event) : Js unit :=
  match ev with
  | connection playerColor => onConnection playerColor
  | message ws data => listener ws (λ s, onMessage (ws_id s) data)
  | closing ws => listener ws (λ s,
      if bool_decide (readyState s = OPEN)
      then modify (with_readyState ws CLOSING)
      else mret tt)
  | close ws => listener ws (λ s, transport_close ws;; onClose (ws_id s))
  | error ws => listener ws (λ s, onError (ws_id s))
  end.

(** A run of the process: events are handled one at a time, and an
    exception that escapes a listener ends the process. *)
Fixpoint exec (evs : list Event) : Js unit :=
  match evs with
  | [] => mret tt
  | ev :: evs => step ev;; exec evs
  end.

Definition state_of {A} (c : Completion A) : Server :=
  match c with Normal _ σ _ | Throw _ σ _ => σ end.

Definition sent {A} (c : Completion A) : list Send :=
  match c with Normal _ _ out | Throw _ _ out => out end.

(** The states the process can be in. *)
Definition reachable (σ : Server) : Prop :=
  ∃ evs, state_of (exec evs initial) = σ.

(** ** Vocabulary of the statements *)

Definition is_open (σ : Server) (client : nat) : bool :=
  match sockets σ !! client with
  | Some s => bool_decide (readyState s = OPEN)
  | None => false
  end.

(** The members of [wss.clients] whose [readyState] is [OPEN]. *)
Definition open_clients (σ : Server) : list nat :=
  filter (λ c, is_open σ c) (clients σ).

(** One copy of [msg] for each of [cs], in order. *)
Definition to_all (cs : list nat) (msg : ServerMsg) : list Send :=
  (λ c, (c, msg)) <$> cs.

(** The ids announced by [init] frames, in the order they were sent. *)
Definition assigned (out : list Send) : list string :=
  omap (λ '(_, msg), match msg with
                     | init playerId _ _ _ => Some playerId
                     | _ => None
                     end) out.

(** The registry snapshots sent as [currentPlayers]. *)
Definition snapshots (out : list Send) : list (gmap string Player.t) :=
  omap (λ '(_, msg), match msg with
                     | currentPlayers snapshot => Some snapshot
                     | _ => None
                     end) out.

Definition is_connection (ev : Event) : bool :=
  match ev with connection _ => true | _ => false end.

(** The initial coordinate of lines 35-36; both sizes are even, so the
    halves are exact. *)
Definition centre : Z := WORLD_SIZE / 2 - PLAYER_SIZE / 2.

Definition in_world (player : Player.t) : Prop :=
  (0 ≤ Player.x player ≤ WORLD_SIZE - PLAYER_SIZE) ∧
  (0 ≤ Player.y player ≤ WORLD_SIZE - PLAYER_SIZE).

Definition on_grid (player : Player.t) : Prop :=
  (MOVEMENT_SPEED | Player.x player) ∧ (MOVEMENT_SPEED | Player.y player).

(** The player created for the [n]-th id. *)
Definition new_player (n : Z) (playerColor : string) : Player.t :=
  Player.mk centre centre playerColor (playerName_of (playerId_of n))
            (playerId_of n).

(** The state a connection leaves behind. *)
Definition connected (playerColor : string) (σ : Server) : Server :=
  with_new_socket {| ws_id := playerId_of (nextPlayerId σ);
                     readyState := OPEN |}
    (with_players <[playerId_of (nextPlayerId σ) :=
                      new_player (nextPlayerId σ) playerColor]>
       (with_nextPlayerId (increment (nextPlayerId σ)) σ)).

(** The state after the object under [ws_id] has been assigned to. *)
Definition relocated (ws_id : string) (player : Player.t) (σ : Server)
  : Server :=
  with_players <[ws_id := player]> σ.

(** The state a disconnection leaves behind. *)
Definition disconnected (ws : nat) (ws_id : string) (σ : Server) : Server :=
  with_players (delete ws_id) (without_client ws (with_readyState ws CLOSED σ)).

(** The value of [obj.key] for an object with the given own properties. *)
Definition property (props : list (string * JsValue)) (key : string)
  : JsValue :=
  default undefined (own_property props key).

(** Sample frames. *)
Definition movement_frame (direction : string) : Frame :=
  json (JObject [("type", JString "movement");
                 ("direction", JString direction)]).

Definition chat_frame (text : string) : Frame :=
  json (JObject [("type", JString "chat"); ("message", JString text)]).

(** No character of [s] is the separator of ids. *)
Fixpoint dashless (s : string) : bool :=
  match s with
  | EmptyString => true
  | String c s => bool_decide (c ≠ "-"%char) && dashless s
  end.

(** The number of ['connection'] events among [evs]. *)
Definition connections (evs : list Event) : Z :=
  Z.of_nat (length (List.filter is_connection evs)).

(** The counter is within the exact integers, and every socket carries an
    id that the counter has passed or the id at which it stops. *)
Definition allocated (σ : Server) : Prop :=
  nextPlayerId σ ≤ MAX_EXACT ∧
  ∀ ws s, sockets σ !! ws = Some s →
          ∃ k, ws_id s = playerId_of k ∧ (k < nextPlayerId σ ∨ k = MAX_EXACT).

(** The [k]-th id has been handed out and is not in the registry. *)
Definition retired (k : Z) (σ : Server) : Prop :=
  players σ !! playerId_of k = None ∧ k < nextPlayerId σ.

(** What the WebSocket library can emit in state [σ]: ['message'] on a
    member of [wss.clients] whose [readyState] is [OPEN]; the start of a
    closing handshake, ['close'] and ['error'] on a member of
    [wss.clients], that is on a socket whose ['close'] has not been emitted
    yet. *)
Definition emitted_in (σ : Server) (ev : Event) : Prop :=
  match ev with
  | connection _ => True
  | message ws _ => ws ∈ open_clients σ
  | closing ws | close ws | error ws => ws ∈ clients σ
  end.

(** A run all of whose events the library can emit. *)
Fixpoint delivered (evs : list Event) (σ : Server) : Prop :=
  match evs with
  | [] => True
  | ev :: evs => emitted_in σ ev ∧ delivered evs (state_of (step ev σ))
  end.

(** Long runs: [N] clients connect, their sockets numbered from [0] to
    [N - 1]; then two more connect and the first of the two leaves, or one
    more connects, leaves, and another one connects.  The statements take
    [N = 2^53 - 1], the number of connects that brings the counter to
    [MAX_EXACT]. *)
Definition shared_id_run (N : nat) : list Event :=
  replicate N (connection "#3FA2C1")
  ++ [connection "#0B7D55"; connection "#C0FFEE"; close N].

Definition returning_id_run (N : nat) : list Event :=
  replicate N (connection "#3FA2C1")
  ++ [connection "#0B7D55"; close N; connection "#C0FFEE"].

(** Sample runs: one client; one client that has pressed [a] fifty times;
    two clients; two clients of which the first has left. *)
Definition alone : Server :=
  state_of (exec [connection "#3FA2C1"] initial).

Definition at_west_wall : Server :=
  state_of (exec (connection "#3FA2C1"
                  :: replicate 50 (message 0%nat (movement_frame "a")))
                 initial).

Definition pair : Server :=
  state_of (exec [connection "#3FA2C1"; connection "#0B7D55"] initial).

Definition pair_minus_first : Server :=
  state_of (exec [connection "#3FA2C1"; connection "#0B7D55"; close 0%nat]
                 initial).

(** The frames of a connection: [init] and [currentPlayers] to the new
    socket, then [playerJoined] to every other open client. *)
Definition welcome (playerColor : string) (σ : Server) : list Send :=
  let ws := length (sockets σ) in
  let player := new_player (nextPlayerId σ) playerColor in
  let σ' := connected playerColor σ in
  [(ws, init (Player.id player) (Some player) WORLD_SIZE PLAYER_SIZE);
   (ws, currentPlayers (players σ'))]
  ++ to_all (filter (λ c, c ≠ ws) (open_clients σ'))
            (playerJoined (Some player)).

(** The player under [ws_id] after a movement in [direction]. *)
Definition step_of (direction : JsValue) (player : Player.t) : Player.t :=
  moved player (resolve direction player).1 (resolve direction player).2.

(** Every way in which one event can complete. *)
Inductive step_shape (σ : Server) : Event → Completion unit → Prop :=
| shape_connection playerColor :
    step_shape σ (connection playerColor)
      (Normal tt (connected playerColor σ) (welcome playerColor σ))
| shape_ignored ev :
    is_connection ev = false →
    step_shape σ ev (Normal tt σ [])
| shape_raised ws data e :
    step_shape σ (message ws data) (Throw e σ [])
| shape_moved ws data s player direction :
    sockets σ !! ws = Some s →
    players σ !! ws_id s = Some player →
    let player' := step_of direction player in
    let σ' := relocated (ws_id s) player' σ in
    step_shape σ (message ws data)
      (Normal tt σ' (to_all (open_clients σ')
         (playerMoved (ws_id s) (Player.x player') (Player.y player'))))
| shape_closing ws :
    step_shape σ (closing ws) (Normal tt (with_readyState ws CLOSING σ) [])
| shape_closed ws s :
    sockets σ !! ws = Some s →
    let σ' := disconnected ws (ws_id s) σ in
    step_shape σ (close ws)
      (Normal tt σ' (to_all (open_clients σ') (playerLeft (ws_id s)))).

(** ** [getRandomColor] (lines 19-26) *)

Definition letters : string := "0123456789ABCDEF".

(** [letters[k]] as [+=] appends it: the character at index [k], and
    [undefined], printed, when there is none. *)
Definition letter (k : nat) : string :=
  match String.get k letters with
  | Some c => String c EmptyString
  | None => "undefined"
  end.

(** The [for] loop with [n] iterations to go, at index [i]; [draws i] is the
    value of [Math.floor (Math.random () * 16)] in iteration [i]. *)
Fixpoint getRandomColor_loop (n i : nat) (draws : nat → nat) (color : string)
  : string :=
  match n with
  | O => color
  | S n => getRandomColor_loop n (S i) draws (color +:+ letter (draws i))
  end.

Definition getRandomColor (draws : nat → nat) : string :=
  getRandomColor_loop 6 0 draws "#".

(** A [#] followed by six characters of [letters]. *)
Definition is_hex (c : ascii) : bool :=
  bool_decide (c ∈ String.list_ascii_of_string letters).

Definition hex_color (s : string) : bool :=
  match s with
  | String c digits =>
      bool_decide (c = "#"%char) && bool_decide (String.length digits = 6%nat)
      && forallb is_hex (String.list_ascii_of_string digits)
  | EmptyString => false
  end.

(** The colours handed to ['connection'] events. *)
Definition colors_of (evs : list Event) : list string :=
  omap (λ ev, match ev with
              | connection playerColor => Some playerColor
              | _ => None
              end) evs.

(** ** Further vocabulary *)

Definition raised {A} (c : Completion A) : bool :=
  match c with Normal _ _ _ => false | Throw _ _ _ => true end.

(** Printing [v] makes no nested call of [join]: [v] is not an array that
    has an array among its elements. *)
Definition flat (v : JsValue) : bool :=
  match v with
  | JArray elems =>
      forallb (λ e, match e with JArray _ => false | _ => true end) elems
  | _ => true
  end.

(** The [type] of the frame, if it has one, is [flat]. *)
Definition flat_type (message : Frame) : bool :=
  match message with
  | json (JObject props) => flat (property props "type")
  | _ => true
  end.

(** The frames on which the ['message'] listener raises: [null], an
    object of type ['chat'], and an object whose type is not ['movement']
    and cannot be printed. *)
Definition faulty (message : Frame) : bool :=
  match message with
  | malformed _ => false
  | json undefined | json null => true
  | json (JObject props) =>
      let type := property props "type" in
      negb (strict_eq type "movement")
      && (strict_eq type "chat" || ToString_raises type)
  | json _ => false
  end.

(** The sockets and the registry agree: the counter is one more than the
    number of sockets created, socket [i] carries the id of number [i + 1],
    and the registry has an entry exactly for the ids of the members of
    [wss.clients]; the entry under a key has that key as its [id] and the
    name derived from it. *)
Record consistent (σ : Server) : Prop := {
  consistent_counter :
    nextPlayerId σ = 1 + Z.of_nat (length (sockets σ));
  consistent_ids :
    ∀ i s, sockets σ !! i = Some s → ws_id s = playerId_of (1 + Z.of_nat i);
  consistent_registry :
    ∀ ws_id', is_Some (players σ !! ws_id') ↔
              ∃ ws s, ws ∈ clients σ ∧ sockets σ !! ws = Some s ∧
                      ws_id s = ws_id';
  consistent_entries :
    map_Forall (λ key player, Player.id player = key ∧
                              Player.name player = playerName_of key)
               (players σ)
}.

(** The frames written to [client], in order. *)
Definition inbox (client : nat) (out : list Send) : list ServerMsg :=
  omap (λ '(c, msg), if bool_decide (c = client) then Some msg else None) out.

(** The two frames that open a session. *)
Definition is_greeting (msg : ServerMsg) : bool :=
  match msg with
  | init _ _ _ _ | currentPlayers _ => true
  | _ => false
  end.

(** Every member of [wss.clients] is a socket that has been created. *)
Definition handles_valid (σ : Server) : Prop :=
  Forall (λ c, (c < length (sockets σ))%nat) (clients σ).

(** * Properties *)

(** ** Running the monad *)

Lemma bind_Normal {A B} (m : Js A) (f : A → Js B) σ a σ1 out1 :
  m σ = Normal a σ1 out1 →
  (m ≫= f) σ = match f a σ1 with
               | Normal b σ2 out2 => Normal b σ2 (out1 ++ out2)
               | Throw e σ2 out2 => Throw e σ2 (out1 ++ out2)
               end.
Proof.
  change (m ≫= f) with (then_ f m). revert σ out1.
  induction m as [a'|e|B0 g k IH|g k IH|c msg k IH]; intros σ out1 H;
    cbn [run then_] in *.
  - injection H as -> -> <-. by destruct (run (f a) σ1).
  - done.
  - by apply IH.
  - by apply IH.
  - destruct (run k σ) as [a' σ' out'|] eqn:E; [|done].
    injection H as -> -> <-. rewrite (IH _ _ E). by destruct (run (f a) σ1).
Qed.

Lemma bind_Throw {A B} (m : Js A) (f : A → Js B) σ e σ1 out1 :
  m σ = Throw e σ1 out1 → (m ≫= f) σ = Throw e σ1 out1.
Proof.
  change (m ≫= f) with (then_ f m). revert σ out1.
  induction m as [a'|e'|B0 g k IH|g k IH|c msg k IH]; intros σ out1 H;
    cbn [run then_] in *.
  - done.
  - by injection H as -> -> <-.
  - by apply IH.
  - by apply IH.
  - destruct (run k σ) as [|e' σ' out'] eqn:E; [done|].
    injection H as -> -> <-. by rewrite (IH _ _ E).
Qed.

(** The journal of a sequence is the journal of its first part followed by
    that of the second, started where the first part ends. *)
Lemma journal_bind {A B} (m : Js A) (f : A → Js B) σ :
  journal (m ≫= f) σ =
  journal m σ ++ match m σ with
                 | Normal a σ1 _ => journal (f a) σ1
                 | Throw _ _ _ => []
                 end.
Proof.
  change (m ≫= f) with (then_ f m). revert σ.
  induction m as [a'|e'|B0 g k IH|g k IH|c msg k IH]; intros σ;
    cbn [run then_ journal].
  - done.
  - done.
  - apply IH.
  - by rewrite IH.
  - rewrite IH. cbn. by destruct (run k σ).
Qed.

Lemma bind_silent {A B} (m : Js A) (f : A → Js B) σ a σ1 :
  m σ = Normal a σ1 [] → (m ≫= f) σ = f a σ1.
Proof. intros H. rewrite (bind_Normal _ _ _ _ _ _ H). by destruct (f a σ1). Qed.

Lemma state_of_bind {A B} (m : Js A) (f : A → Js B) σ a σ1 out1 :
  m σ = Normal a σ1 out1 → state_of ((m ≫= f) σ) = state_of (f a σ1).
Proof. intros H. rewrite (bind_Normal _ _ _ _ _ _ H). by destruct (f a σ1). Qed.

Lemma sent_bind {A B} (m : Js A) (f : A → Js B) σ a σ1 out1 :
  m σ = Normal a σ1 out1 → sent ((m ≫= f) σ) = out1 ++ sent (f a σ1).
Proof. intros H. rewrite (bind_Normal _ _ _ _ _ _ H). by destruct (f a σ1). Qed.

(** Runs the leading effects of a handler whose outcome is known. *)
Ltac js_run :=
  repeat (first [ erewrite bind_silent by reflexivity
                | erewrite bind_Normal by reflexivity ];
          cbn beta iota).

(** ** Broadcast loops *)

Lemma forEach_emit (f : nat → Js unit) (emit : nat → list Send) σ l :
  (∀ c, f c σ = Normal tt σ (emit c)) →
  forEach l f σ = Normal tt σ (l ≫= emit).
Proof.
  intros Hf. induction l as [|c l IH]; [done|].
  cbn [forEach]. rewrite (bind_Normal _ _ _ _ _ _ (Hf c)), IH. done.
Qed.

Lemma bind_guarded_singleton (g : nat → bool) (msg : ServerMsg) l :
  l ≫= (λ c, if g c then [(c, msg)] else []) = to_all (filter (λ c, g c) l) msg.
Proof.
  unfold to_all. induction l as [|c l IH]; [done|].
  change ((c :: l) ≫= ?k) with (k c ++ (l ≫= k)). rewrite IH, filter_cons.
  destruct (g c); simpl; done.
Qed.

Lemma is_OPEN_run client σ : is_OPEN client σ = Normal (is_open σ client) σ [].
Proof. reflexivity. Qed.

Lemma broadcast_open (msg : ServerMsg) σ :
  wss_clients_forEach (λ client,
    open ← is_OPEN client;
    if (open : bool) then send client msg else mret tt) σ
  = Normal tt σ (to_all (open_clients σ) msg).
Proof.
  unfold wss_clients_forEach, open_clients.
  rewrite <- bind_guarded_singleton. apply forEach_emit. intros c.
  rewrite (bind_silent _ _ _ _ _ (is_OPEN_run c σ)). by destruct (is_open σ c).
Qed.

Lemma broadcast_joined (playerId : string) (ws : nat) σ :
  wss_clients_forEach (λ client,
    open ← is_OPEN client;
    if bool_decide (client ≠ ws) && open
    then player ← gets (λ σ, players σ !! playerId);
         send client (playerJoined player)
    else mret tt) σ
  = Normal tt σ (to_all (filter (λ c, c ≠ ws) (open_clients σ))
                        (playerJoined (players σ !! playerId))).
Proof.
  unfold wss_clients_forEach, open_clients.
  rewrite list_filter_filter.
  rewrite (list_filter_iff _ (λ c, bool_decide (c ≠ ws) && is_open σ c)).
  2:{ intros c. rewrite andb_True, bool_decide_spec. done. }
  rewrite <- (bind_guarded_singleton (λ c, bool_decide (c ≠ ws) && is_open σ c)).
  apply forEach_emit. intros c.
  rewrite (bind_silent _ _ _ _ _ (is_OPEN_run c σ)).
  by destruct (bool_decide (c ≠ ws) && is_open σ c).
Qed.

Lemma onConnection_run playerColor σ :
  onConnection playerColor σ =
  Normal tt (connected playerColor σ) (welcome playerColor σ).
Proof.
  unfold onConnection. js_run. rewrite broadcast_joined.
  cbn [players with_new_socket with_players with_nextPlayerId].
  rewrite !lookup_insert_eq. done.
Qed.

(** ** The journal of the broadcast loops *)

Lemma journal_forEach (f : nat → Js unit) (emit : nat → list Send)
    (log : nat → list Effect) σ l :
  (∀ c, f c σ = Normal tt σ (emit c)) →
  (∀ c, journal (f c) σ = log c) →
  journal (forEach l f) σ = l ≫= log.
Proof.
  intros Hf Hlog. induction l as [|c l IH]; [done|].
  cbn [forEach]. rewrite journal_bind, Hf, Hlog, IH. done.
Qed.

Lemma bind_guarded_written (g : nat → bool) (msg : ServerMsg) l :
  l ≫= (λ c, if g c then [written_to c msg] else [])
  = (λ c, written_to c msg) <$> filter (λ c, g c) l.
Proof.
  induction l as [|c l IH]; [done|].
  change ((c :: l) ≫= ?k) with (k c ++ (l ≫= k)). rewrite IH, filter_cons.
  destruct (g c); simpl; done.
Qed.

Lemma journal_broadcast_open (msg : ServerMsg) σ :
  journal (wss_clients_forEach (λ client,
    open ← is_OPEN client;
    if (open : bool) then send client msg else mret tt)) σ
  = (λ c, written_to c msg) <$> open_clients σ.
Proof.
  unfold wss_clients_forEach, open_clients.
  rewrite <- bind_guarded_written. cbn [mbind Js_bind then_ gets journal].
  apply (journal_forEach _ (λ c, if is_open σ c then [(c, msg)] else [])).
  - intros c. rewrite (bind_silent _ _ _ _ _ (is_OPEN_run c σ)).
    by destruct (is_open σ c).
  - intros c. rewrite journal_bind, is_OPEN_run. by destruct (is_open σ c).
Qed.

Lemma journal_broadcast_joined (playerId : string) (ws : nat) σ :
  journal (wss_clients_forEach (λ client,
    open ← is_OPEN client;
    if bool_decide (client ≠ ws) && open
    then player ← gets (λ σ, players σ !! playerId);
         send client (playerJoined player)
    else mret tt)) σ
  = (λ c, written_to c (playerJoined (players σ !! playerId)))
      <$> filter (λ c, c ≠ ws) (open_clients σ).
Proof.
  unfold wss_clients_forEach, open_clients.
  rewrite list_filter_filter.
  rewrite (list_filter_iff _ (λ c, bool_decide (c ≠ ws) && is_open σ c)).
  2:{ intros c. rewrite andb_True, bool_decide_spec. done. }
  rewrite <- (bind_guarded_written
                (λ c, bool_decide (c ≠ ws) && is_open σ c)).
  cbn [mbind Js_bind then_ gets journal].
  apply (journal_forEach _
           (λ c, if bool_decide (c ≠ ws) && is_open σ c
                 then [(c, playerJoined (players σ !! playerId))] else [])).
  - intros c. rewrite (bind_silent _ _ _ _ _ (is_OPEN_run c σ)).
    by destruct (bool_decide (c ≠ ws) && is_open σ c).
  - intros c. rewrite journal_bind, is_OPEN_run.
    by destruct (bool_decide (c ≠ ws) && is_open σ c).
Qed.

(** The ['connection'] listener in program order: the counter, the
    registry and the socket are assigned to, and only then are the frames
    written, whose payloads are read from the registry at that moment. *)
Lemma onConnection_journal playerColor σ :
  let ws := length (sockets σ) in
  let playerId := playerId_of (nextPlayerId σ) in
  let σ1 := with_nextPlayerId (increment (nextPlayerId σ)) σ in
  let σ2 := with_players
              <[playerId := new_player (nextPlayerId σ) playerColor]> σ1 in
  let σ' := connected playerColor σ in
  journal (onConnection playerColor) σ =
  [assigned_to σ1; assigned_to σ2; assigned_to σ';
   written_to ws (init playerId (players σ' !! playerId)
                       WORLD_SIZE PLAYER_SIZE);
   written_to ws (currentPlayers (players σ'))]
  ++ ((λ c, written_to c (playerJoined (players σ' !! playerId)))
        <$> filter (λ c, c ≠ ws) (open_clients σ')).
Proof.
  intros ws playerId σ1 σ2 σ'. unfold onConnection.
  repeat (rewrite journal_bind;
          cbn [journal run gets modify send app]).
  by rewrite journal_broadcast_joined.
Qed.

Lemma onClose_journal ws_id σ :
  journal (onClose ws_id) σ =
  assigned_to (with_players (delete ws_id) σ)
  :: ((λ c, written_to c (playerLeft ws_id))
        <$> open_clients (with_players (delete ws_id) σ)).
Proof.
  unfold onClose. rewrite journal_bind. cbn [journal run modify app].
  by rewrite journal_broadcast_open.
Qed.

(** ** The ['message'] listener, case by case *)

Lemma onMessage_malformed ws_id raw σ :
  onMessage ws_id (malformed raw) σ = Normal tt σ [].
Proof. reflexivity. Qed.

Lemma onMessage_null ws_id σ :
  onMessage ws_id (json null) σ = Throw TypeError σ [].
Proof. reflexivity. Qed.

Lemma onMessage_object ws_id props σ :
  onMessage ws_id (json (JObject props)) σ =
  (let type := property props "type" in
   if strict_eq type "movement" then case_movement ws_id (JObject props)
   else if strict_eq type "chat" then case_chat uninitialized (JObject props)
   else template type) σ.
Proof. unfold onMessage. cbn [JSON_parse]. by js_run. Qed.

Lemma onMessage_primitive ws_id v σ :
  match v with undefined | null | JObject _ => False | _ => True end →
  onMessage ws_id (json v) σ = Normal tt σ [].
Proof. destruct v; (done || (intros _; unfold onMessage; by js_run)). Qed.

Lemma case_chat_uninitialized parsedMessage σ :
  case_chat uninitialized parsedMessage σ = Throw ReferenceError σ [].
Proof. reflexivity. Qed.

Lemma case_movement_absent ws_id parsedMessage σ :
  players σ !! ws_id = None →
  case_movement ws_id parsedMessage σ = Normal tt σ [].
Proof.
  intros Hnone. unfold case_movement. js_run. by rewrite Hnone.
Qed.

Lemma case_movement_present ws_id props player σ :
  players σ !! ws_id = Some player →
  let player' := step_of (property props "direction") player in
  case_movement ws_id (JObject props) σ =
  if bool_decide (Player.x player' ≠ Player.x player)
     || bool_decide (Player.y player' ≠ Player.y player)
  then
    let σ' := relocated ws_id player' σ in
    Normal tt σ' (to_all (open_clients σ')
      (playerMoved ws_id (Player.x player') (Player.y player')))
  else Normal tt σ [].
Proof.
  intros Hsome. unfold case_movement, step_of. js_run. rewrite Hsome.
  js_run. fold (property props "direction").
  destruct (resolve _ player) as [newX newY].
  cbn [fst snd moved Player.x Player.y].
  destruct (_ || _); [|done].
  js_run. by rewrite broadcast_open.
Qed.

(** ** One event *)

Lemma listener_present ws s k σ :
  sockets σ !! ws = Some s → listener ws k σ = k s σ.
Proof. intros H. unfold listener. js_run. by rewrite H. Qed.

Lemma listener_absent ws k σ :
  sockets σ !! ws = None → listener ws k σ = Normal tt σ [].
Proof. intros H. unfold listener. js_run. by rewrite H. Qed.

Lemma onClose_run ws_id σ :
  onClose ws_id σ =
  Normal tt (with_players (delete ws_id) σ)
    (to_all (open_clients (with_players (delete ws_id) σ)) (playerLeft ws_id)).
Proof. unfold onClose. js_run. by rewrite broadcast_open. Qed.

Lemma step_close ws s σ :
  sockets σ !! ws = Some s →
  step (close ws) σ =
  Normal tt (disconnected ws (ws_id s) σ)
    (to_all (open_clients (disconnected ws (ws_id s) σ))
            (playerLeft (ws_id s))).
Proof.
  intros Hs. cbn [step]. rewrite (listener_present _ _ _ _ Hs).
  unfold transport_close. js_run. by rewrite onClose_run.
Qed.

Lemma onMessage_shape ws s data σ :
  sockets σ !! ws = Some s →
  step_shape σ (message ws data) (onMessage (ws_id s) data σ).
Proof.
  intros Hs. destruct data as [raw|v].
  { rewrite onMessage_malformed. by constructor. }
  destruct v as [| |b|n|str|elems|props];
    try (rewrite onMessage_primitive by done; by constructor);
    try (cbv; by constructor).
  rewrite onMessage_object. cbn zeta.
  destruct (strict_eq _ "movement").
  - destruct (players σ !! ws_id s) as [player|] eqn:Hp.
    + pose proof (case_movement_present _ props _ _ Hp) as ->.
      destruct (_ || _); [by eapply shape_moved | by constructor].
    + rewrite case_movement_absent by done. by constructor.
  - destruct (strict_eq _ "chat").
    + rewrite case_chat_uninitialized. constructor.
    + unfold template. destruct (ToString_raises _); cbv; by constructor.
Qed.

Lemma step_has_shape ev σ : step_shape σ ev (step ev σ).
Proof.
  destruct ev as [playerColor|ws data|ws|ws|ws];
    [cbn [step]| cbn [step]| cbn [step]| |cbn [step]].
  - rewrite onConnection_run. constructor.
  - destruct (sockets σ !! ws) as [s|] eqn:Hs.
    + rewrite (listener_present _ _ _ _ Hs). by apply onMessage_shape.
    + rewrite listener_absent by done. by constructor.
  - destruct (sockets σ !! ws) as [s|] eqn:Hs.
    + rewrite (listener_present _ _ _ _ Hs).
      destruct (bool_decide _); [apply shape_closing | by constructor].
    + rewrite listener_absent by done. by constructor.
  - destruct (sockets σ !! ws) as [s|] eqn:Hs.
    + rewrite (step_close _ _ _ Hs). by apply shape_closed.
    + cbn [step]. rewrite listener_absent by done. by constructor.
  - destruct (sockets σ !! ws) as [s|] eqn:Hs.
    + rewrite (listener_present _ _ _ _ Hs). by constructor.
    + rewrite listener_absent by done. by constructor.
Qed.

(** ** Runs *)

Lemma exec_nil σ : exec [] σ = Normal tt σ [].
Proof. reflexivity. Qed.

Lemma exec_cons_Normal ev evs σ σ1 out1 :
  step ev σ = Normal tt σ1 out1 →
  state_of (exec (ev :: evs) σ) = state_of (exec evs σ1) ∧
  sent (exec (ev :: evs) σ) = out1 ++ sent (exec evs σ1).
Proof.
  intros H. cbn [exec]. split.
  - apply (state_of_bind _ (λ _, exec evs) _ _ _ _ H).
  - apply (sent_bind _ (λ _, exec evs) _ _ _ _ H).
Qed.

Lemma exec_cons_Throw ev evs σ e σ1 out1 :
  step ev σ = Throw e σ1 out1 →
  exec (ev :: evs) σ = Throw e σ1 out1.
Proof. intros H. cbn [exec]. by apply bind_Throw. Qed.

(** A property kept by every event holds throughout a run. *)
Lemma exec_invariant (I : Server → Prop) :
  (∀ ev σ, I σ → I (state_of (step ev σ))) →
  ∀ evs σ, I σ → I (state_of (exec evs σ)).
Proof.
  intros Hstep evs. induction evs as [|ev evs IH]; intros σ Hσ; [done|].
  specialize (Hstep ev σ Hσ). destruct (step ev σ) as [[] σ1 out1|e σ1 out1] eqn:E.
  - destruct (exec_cons_Normal ev evs _ _ _ E) as [-> _]. by apply IH.
  - by rewrite (exec_cons_Throw ev evs _ _ _ _ E).
Qed.

Lemma reachable_invariant (I : Server → Prop) :
  I initial →
  (∀ ev σ, I σ → I (state_of (step ev σ))) →
  ∀ σ, reachable σ → I σ.
Proof. intros H0 Hstep σ [evs <-]. by apply exec_invariant. Qed.

(** ** The registry holds only players made by the handlers *)

Lemma registry_step (P : Player.t → Prop) :
  (∀ n playerColor, P (new_player n playerColor)) →
  (∀ direction player, P player → P (step_of direction player)) →
  ∀ ev σ, map_Forall (λ _, P) (players σ) →
          map_Forall (λ _, P) (players (state_of (step ev σ))).
Proof.
  intros Hnew Hmove ev σ Hσ.
  destruct (step_has_shape ev σ); cbn; try done.
  - apply map_Forall_insert_2; [apply Hnew | done].
  - apply map_Forall_insert_2; [|done]. apply Hmove. by eapply (Hσ _ _).
  - by apply map_Forall_delete.
Qed.

Lemma registry_invariant (P : Player.t → Prop) :
  (∀ n playerColor, P (new_player n playerColor)) →
  (∀ direction player, P player → P (step_of direction player)) →
  ∀ σ, reachable σ → map_Forall (λ _, P) (players σ).
Proof.
  intros Hnew Hmove. apply reachable_invariant.
  - apply map_Forall_empty.
  - by apply registry_step.
Qed.

(** ** The movement resolver *)

Lemma resolve_cases direction player :
  let x := Player.x player in
  let y := Player.y player in
  resolve direction player ∈
    [ (x, Z.max 0 (y - MOVEMENT_SPEED));
      (Z.max 0 (x - MOVEMENT_SPEED), y);
      (x, Z.min (WORLD_SIZE - PLAYER_SIZE) (y + MOVEMENT_SPEED));
      (Z.min (WORLD_SIZE - PLAYER_SIZE) (x + MOVEMENT_SPEED), y);
      (x, y) ].
Proof.
  intros x y. unfold resolve.
  repeat (destruct (strict_eq direction _); [set_solver|]). set_solver.
Qed.

Lemma step_of_in_world direction player :
  in_world player → in_world (step_of direction player).
Proof.
  unfold in_world, step_of. intros [Hx Hy].
  pose proof (resolve_cases direction player) as Hr. cbn zeta in Hr.
  unfold WORLD_SIZE, PLAYER_SIZE, MOVEMENT_SPEED in *.
  repeat (apply elem_of_cons in Hr as [->|Hr]); [..|by apply elem_of_nil in Hr];
    cbn [moved Player.x Player.y fst snd]; lia.
Qed.

Lemma grid_max a : (5 | 0 `max` (a * 5 - 5)).
Proof.
  destruct (Z.max_spec 0 (a * 5 - 5)) as [[_ ->]|[_ ->]];
    [exists (a - 1); lia | exists 0; lia].
Qed.

Lemma grid_min a : (5 | (500 - 20) `min` (a * 5 + 5)).
Proof.
  destruct (Z.min_spec (500 - 20) (a * 5 + 5)) as [[_ ->]|[_ ->]];
    [exists 96; lia | exists (a + 1); lia].
Qed.

Lemma step_of_on_grid direction player :
  on_grid player → on_grid (step_of direction player).
Proof.
  unfold on_grid, step_of. intros [[a Ha] [b Hb]].
  pose proof (resolve_cases direction player) as Hr. cbn zeta in Hr.
  unfold WORLD_SIZE, PLAYER_SIZE, MOVEMENT_SPEED in *.
  repeat (apply elem_of_cons in Hr as [->|Hr]); [..|by apply elem_of_nil in Hr];
    cbn [moved Player.x Player.y fst snd]; rewrite ?Ha, ?Hb; split;
    first [ apply grid_max | apply grid_min | apply Z.divide_factor_r ].
Qed.

Lemma new_player_in_world n playerColor : in_world (new_player n playerColor).
Proof. unfold in_world. cbn. unfold centre. cbv. intuition discriminate. Qed.

Lemma new_player_on_grid n playerColor : on_grid (new_player n playerColor).
Proof. split; cbn; exists 48; reflexivity. Qed.

(** ** Identifiers *)

Global Instance playerId_of_inj : Inj (=) (=) playerId_of.
Proof.
  intros a b H. unfold playerId_of in H.
  apply (inj (String.app "player-")) in H. by apply (inj pretty) in H.
Qed.

Lemma split_dashless s : dashless s → split "-" s = [s].
Proof.
  induction s as [|c s IH]; [done|]. cbn [dashless split].
  intros [Hc Hs]%andb_True. apply bool_decide_unpack in Hc.
  rewrite bool_decide_eq_false_2 by done. by rewrite IH.
Qed.

Lemma split_cons_dash s : split "-" (String "-" s) = "" :: split "-" s.
Proof. cbn [split]. by rewrite bool_decide_eq_true_2. Qed.

Lemma split_cons_other c s :
  c ≠ "-"%char →
  split "-" (String c s) = match split "-" s with
                           | piece :: pieces => String c piece :: pieces
                           | [] => [String c ""]
                           end.
Proof. intros Hc. cbn [split]. by rewrite bool_decide_eq_false_2. Qed.

Lemma pretty_N_go_dashless x s : dashless s → dashless (pretty_N_go x s).
Proof.
  revert s. induction (N.lt_wf_0 x) as [x _ IH]; intros s Hs.
  assert (x = 0 ∨ 0 < x)%N as [->|Hx] by lia.
  - by rewrite pretty_N_go_0.
  - rewrite pretty_N_go_step by done. apply IH; [by apply N.div_lt|].
    cbn [dashless]. apply andb_True. split; [|done].
    apply bool_decide_pack. unfold pretty_N_char. by repeat case_match.
Qed.

Lemma pretty_Z_dashless n : 0 ≤ n → dashless (pretty n).
Proof.
  destruct n as [|p|p]; [done| |lia]. intros _.
  unfold pretty, pretty_Z, pretty, pretty_positive, pretty, pretty_N.
  case_decide; [done|]. by apply pretty_N_go_dashless.
Qed.

(** The default name is [Player] followed by the number of the id. *)
Lemma playerName_of_playerId_of n :
  0 ≤ n → playerName_of (playerId_of n) = "Player " +:+ pretty n.
Proof.
  intros Hn. unfold playerName_of, playerId_of.
  pose proof (split_dashless _ (pretty_Z_dashless n Hn)) as Hsplit.
  change ("player-" +:+ pretty n)
    with (String "p" (String "l" (String "a" (String "y" (String "e"
           (String "r" (String "-" (pretty n)))))))).
  rewrite !split_cons_other by done. rewrite split_cons_dash, Hsplit. done.
Qed.

Lemma assigned_app out1 out2 :
  assigned (out1 ++ out2) = assigned out1 ++ assigned out2.
Proof. apply omap_app. Qed.

Lemma snapshots_app out1 out2 :
  snapshots (out1 ++ out2) = snapshots out1 ++ snapshots out2.
Proof. apply omap_app. Qed.

Lemma assigned_to_all cs msg :
  match msg with init _ _ _ _ => False | _ => True end →
  assigned (to_all cs msg) = [].
Proof.
  intros Hmsg. unfold assigned, to_all.
  induction cs as [|c cs IH]; [done|]. cbn. rewrite IH. by destruct msg.
Qed.

Lemma snapshots_to_all cs msg :
  match msg with currentPlayers _ => False | _ => True end →
  snapshots (to_all cs msg) = [].
Proof.
  intros Hmsg. unfold snapshots, to_all.
  induction cs as [|c cs IH]; [done|]. cbn. rewrite IH. by destruct msg.
Qed.

Lemma assigned_welcome playerColor σ :
  assigned (welcome playerColor σ) = [playerId_of (nextPlayerId σ)].
Proof.
  unfold welcome. cbn zeta. by rewrite assigned_app, assigned_to_all.
Qed.

Lemma snapshots_welcome playerColor σ :
  snapshots (welcome playerColor σ) = [players (connected playerColor σ)].
Proof.
  unfold welcome. cbn zeta. by rewrite snapshots_app, snapshots_to_all.
Qed.

Lemma MAX_EXACT_pos : 1 < MAX_EXACT.
Proof. reflexivity. Qed.

Lemma increment_below n : n < MAX_EXACT → increment n = n + 1.
Proof. intros H. unfold increment. by rewrite decide_True. Qed.

Lemma increment_at_MAX_EXACT : increment MAX_EXACT = MAX_EXACT.
Proof. unfold increment. rewrite decide_False; [done|lia]. Qed.

Lemma increment_bounds n : n ≤ increment n ≤ n + 1.
Proof. unfold increment. case_decide; lia. Qed.

Lemma increment_in_range n : n ≤ MAX_EXACT → increment n ≤ MAX_EXACT.
Proof. unfold increment. case_decide; lia. Qed.

Lemma step_counter ev σ :
  nextPlayerId (state_of (step ev σ)) =
  if is_connection ev then increment (nextPlayerId σ) else nextPlayerId σ.
Proof.
  destruct (step_has_shape ev σ) as [| ev Hev | | | |];
    cbn [state_of is_connection]; try done.
  by rewrite Hev.
Qed.

Lemma step_assigned ev σ :
  assigned (sent (step ev σ)) =
  if is_connection ev then [playerId_of (nextPlayerId σ)] else [].
Proof.
  destruct (step_has_shape ev σ) as [| ev Hev | | | |]; cbn [sent is_connection].
  - apply assigned_welcome.
  - by rewrite Hev.
  - done.
  - by apply assigned_to_all.
  - done.
  - by apply assigned_to_all.
Qed.

Lemma step_counter_mono ev σ :
  nextPlayerId σ ≤ nextPlayerId (state_of (step ev σ)).
Proof.
  rewrite step_counter. pose proof (increment_bounds (nextPlayerId σ)).
  destruct (is_connection ev); lia.
Qed.

Lemma exec_counter_mono evs σ :
  nextPlayerId σ ≤ nextPlayerId (state_of (exec evs σ)).
Proof.
  revert σ. induction evs as [|ev evs IH]; intros σ; [done|].
  pose proof (step_counter_mono ev σ) as Hc.
  destruct (step ev σ) as [[] σ1 out1|e σ1 out1] eqn:E; cbn [state_of] in Hc.
  - destruct (exec_cons_Normal ev evs _ _ _ E) as [-> _].
    specialize (IH σ1). lia.
  - by rewrite (exec_cons_Throw ev evs _ _ _ _ E).
Qed.

(** The counter never leaves the integers that are exact. *)
Lemma counter_in_range evs σ :
  1 ≤ nextPlayerId σ ≤ MAX_EXACT →
  1 ≤ nextPlayerId (state_of (exec evs σ)) ≤ MAX_EXACT.
Proof.
  apply (exec_invariant (λ σ, 1 ≤ nextPlayerId σ ≤ MAX_EXACT)).
  clear. intros ev σ Hσ. rewrite step_counter.
  pose proof (increment_bounds (nextPlayerId σ)).
  pose proof (increment_in_range (nextPlayerId σ)).
  destruct (is_connection ev); lia.
Qed.

Lemma connections_cons ev evs :
  connections (ev :: evs) =
  (if is_connection ev then 1 else 0) + connections evs.
Proof.
  unfold connections. cbn [List.filter].
  destruct (is_connection ev); cbn [length]; lia.
Qed.

Lemma connections_nonneg evs : 0 ≤ connections evs.
Proof. unfold connections. lia. Qed.

Lemma length_assigned evs σ :
  Z.of_nat (length (assigned (sent (exec evs σ)))) ≤ connections evs.
Proof.
  revert σ. induction evs as [|ev evs IH]; intros σ; [done|].
  rewrite connections_cons. pose proof (step_assigned ev σ) as Ha.
  pose proof (connections_nonneg evs).
  destruct (step ev σ) as [[] σ1 out1|e σ1 out1] eqn:E; cbn [sent] in Ha.
  - destruct (exec_cons_Normal ev evs _ _ _ E) as [_ ->].
    rewrite assigned_app, length_app, Ha. specialize (IH σ1).
    destruct (is_connection ev); cbn [length]; lia.
  - rewrite (exec_cons_Throw ev evs _ _ _ _ E). cbn [sent]. rewrite Ha.
    destruct (is_connection ev); cbn [length]; lia.
Qed.

(** While the counter counts, the ids handed out are consecutive. *)
Lemma exec_assigned evs σ :
  nextPlayerId σ ≤ MAX_EXACT →
  nextPlayerId σ + connections evs ≤ MAX_EXACT + 1 →
  assigned (sent (exec evs σ)) =
  playerId_of <$> seqZ (nextPlayerId σ)
                       (Z.of_nat (length (assigned (sent (exec evs σ))))).
Proof.
  revert σ. induction evs as [|ev evs IH]; intros σ Hle Hbound; [done|].
  rewrite connections_cons in Hbound.
  pose proof (step_counter ev σ) as Hc. pose proof (step_assigned ev σ) as Ha.
  pose proof (connections_nonneg evs) as Hnn.
  destruct (step ev σ) as [[] σ1 out1|e σ1 out1] eqn:E;
    cbn [state_of sent] in Hc, Ha.
  - destruct (exec_cons_Normal ev evs _ _ _ E) as [_ ->].
    rewrite assigned_app, Ha. destruct (is_connection ev).
    + cbn [app length]. rewrite Nat2Z.inj_succ, seqZ_cons by lia.
      rewrite Z.pred_succ. cbn [fmap list_fmap]. f_equal.
      destruct (decide (nextPlayerId σ < MAX_EXACT)) as [Hlt|Hge].
      * rewrite (increment_below _ Hlt) in Hc.
        rewrite (IH σ1) at 1 by lia. by rewrite Hc.
      * pose proof (length_assigned evs σ1) as Hlen.
        assert (length (assigned (sent (exec evs σ1))) = 0%nat) as Hnil by lia.
        rewrite Hnil. by apply nil_length_inv in Hnil as ->.
    + cbn [app]. rewrite (IH σ1) at 1 by lia. by rewrite Hc.
  - rewrite (exec_cons_Throw ev evs _ _ _ _ E). cbn [sent]. rewrite Ha.
    by destruct (is_connection ev).
Qed.

(** If the counter has room for all connects of a run, it ends at its
    start plus the number of ids handed out. *)
Lemma exec_counter evs σ :
  nextPlayerId σ + connections evs ≤ MAX_EXACT →
  nextPlayerId (state_of (exec evs σ)) =
  nextPlayerId σ + Z.of_nat (length (assigned (sent (exec evs σ)))).
Proof.
  revert σ. induction evs as [|ev evs IH]; intros σ Hbound.
  { cbn [exec state_of sent assigned omap length]. rewrite exec_nil.
    cbn [state_of sent]. change (assigned []) with (@nil string).
    cbn [length]. lia. }
  rewrite connections_cons in Hbound.
  pose proof (step_counter ev σ) as Hc. pose proof (step_assigned ev σ) as Ha.
  pose proof (connections_nonneg evs) as Hnn.
  destruct (step ev σ) as [[] σ1 out1|e σ1 out1] eqn:E;
    cbn [state_of sent] in Hc, Ha.
  - destruct (exec_cons_Normal ev evs _ _ _ E) as [-> ->].
    rewrite assigned_app, length_app, Ha.
    destruct (is_connection ev).
    + rewrite increment_below in Hc by lia. rewrite IH by lia.
      cbn [length]. lia.
    + rewrite IH by lia. cbn [length]. lia.
  - rewrite (exec_cons_Throw ev evs _ _ _ _ E). cbn [state_of sent].
    rewrite Ha, Hc. destruct (is_connection ev); cbn [length].
    + rewrite increment_below by lia. lia.
    + lia.
Qed.

(** ** Long runs *)

Lemma exec_app evs1 evs2 σ σ1 out1 :
  exec evs1 σ = Normal tt σ1 out1 →
  state_of (exec (evs1 ++ evs2) σ) = state_of (exec evs2 σ1) ∧
  sent (exec (evs1 ++ evs2) σ) = out1 ++ sent (exec evs2 σ1).
Proof.
  revert σ out1. induction evs1 as [|ev evs1 IH]; intros σ out1 H.
  { rewrite exec_nil in H. by injection H as -> <-. }
  rewrite <- app_comm_cons.
  destruct (step ev σ) as [[] σ0 out0|e σ0 out0] eqn:E.
  - cbn [exec] in H. rewrite (bind_Normal _ _ _ _ _ _ E) in H.
    destruct (exec evs1 σ0) as [[] σ' out'|] eqn:E1; [|done].
    injection H as -> <-.
    destruct (exec_cons_Normal ev (evs1 ++ evs2) _ _ _ E) as [-> ->].
    destruct (IH _ _ E1) as [-> ->]. by rewrite app_assoc.
  - by rewrite (exec_cons_Throw ev evs1 _ _ _ _ E) in H.
Qed.

Lemma step_connection playerColor σ :
  step (connection playerColor) σ =
  Normal tt (connected playerColor σ) (welcome playerColor σ).
Proof. cbn [step]. apply onConnection_run. Qed.

Lemma connects_run playerColor k σ :
  nextPlayerId σ + Z.of_nat k ≤ MAX_EXACT →
  ∃ σ' out,
    exec (replicate k (connection playerColor)) σ = Normal tt σ' out ∧
    nextPlayerId σ' = nextPlayerId σ + Z.of_nat k ∧
    length (sockets σ') = (length (sockets σ) + k)%nat ∧
    assigned out = playerId_of <$> seqZ (nextPlayerId σ) (Z.of_nat k).
Proof.
  revert σ. induction k as [|k IH]; intros σ Hle.
  { exists σ, []. rewrite Nat2Z.inj_0, Z.add_0_r, Nat.add_0_r. done. }
  rewrite Nat2Z.inj_succ in Hle |- *.
  destruct (IH (connected playerColor σ)) as (σ' & out & Hrun & Hc & Hl & Ha).
  { cbn [nextPlayerId connected with_new_socket with_players
         with_nextPlayerId]. rewrite increment_below by lia. lia. }
  cbn [nextPlayerId sockets connected with_new_socket with_players
       with_nextPlayerId] in Hc, Hl, Ha.
  rewrite increment_below in Hc, Ha by lia. rewrite length_app in Hl.
  exists σ', (welcome playerColor σ ++ out). split; [|split; [|split]].
  - cbn [replicate exec].
    rewrite (bind_Normal _ _ _ _ _ _ (step_connection playerColor σ)).
    by rewrite Hrun.
  - lia.
  - cbn [length] in Hl. lia.
  - rewrite assigned_app, assigned_welcome, Ha.
    rewrite (seqZ_cons (nextPlayerId σ)) by lia.
    by rewrite Z.pred_succ, <- Z.add_1_r.
Qed.

Lemma connections_replicate k playerColor :
  connections (replicate k (connection playerColor)) = Z.of_nat k.
Proof.
  induction k as [|k IH]; [done|].
  cbn [replicate]. rewrite connections_cons, IH. cbn [is_connection]. lia.
Qed.

Lemma delivered_connects k playerColor σ :
  delivered (replicate k (connection playerColor)) σ.
Proof.
  revert σ. induction k as [|k IH]; intros σ; [done|].
  cbn [replicate delivered emitted_in]. split; [done|apply IH].
Qed.

Lemma delivered_app evs1 evs2 σ σ1 out1 :
  exec evs1 σ = Normal tt σ1 out1 →
  delivered evs1 σ → delivered evs2 σ1 → delivered (evs1 ++ evs2) σ.
Proof.
  revert σ out1. induction evs1 as [|ev evs1 IH]; intros σ out1 H H1 H2.
  { rewrite exec_nil in H. by injection H as -> <-. }
  rewrite <- app_comm_cons. destruct H1 as [Hev H1]. split; [done|].
  destruct (step ev σ) as [[] σ0 out0|e σ0 out0] eqn:E.
  - cbn [exec] in H. rewrite (bind_Normal _ _ _ _ _ _ E) in H.
    destruct (exec evs1 σ0) as [[] σ' out'|] eqn:E1; [|done].
    injection H as -> <-. by apply (IH _ _ E1).
  - by rewrite (exec_cons_Throw ev evs1 _ _ _ _ E) in H.
Qed.

Lemma playerId_of_MAX_EXACT :
  playerId_of MAX_EXACT = "player-9007199254740992".
Proof. vm_compute. reflexivity. Qed.

(** After [MAX_EXACT - 1] connects the counter is at [MAX_EXACT]. *)
Lemma counted_out_run (N : nat) playerColor :
  Z.of_nat N = MAX_EXACT - 1 →
  ∃ σ out,
    exec (replicate N (connection playerColor)) initial = Normal tt σ out ∧
    nextPlayerId σ = MAX_EXACT ∧
    length (sockets σ) = N ∧
    assigned out = playerId_of <$> seqZ 1 (MAX_EXACT - 1).
Proof.
  intros HN.
  destruct (connects_run playerColor N initial) as (σ & out & Hrun & Hc & Hl & Ha).
  { change (nextPlayerId initial) with 1. lia. }
  change (nextPlayerId initial) with 1 in Hc, Ha.
  change (length (sockets initial)) with 0%nat in Hl.
  exists σ, out. rewrite Hc, Hl, Ha, HN. split; [done|].
  split; [lia|]. split; [lia|done].
Qed.

Lemma MAX_EXACT_as_nat : Z.of_nat (Z.to_nat (MAX_EXACT - 1)) = MAX_EXACT - 1.
Proof. pose proof MAX_EXACT_pos. lia. Qed.

(** The state in which a socket that shares its id has just left. *)
Lemma shared_id_state playerColor playerColor' σ :
  nextPlayerId σ = MAX_EXACT →
  let A := length (sockets σ) in
  let B := S (length (sockets σ)) in
  let σ' := disconnected A (playerId_of MAX_EXACT)
              (connected playerColor' (connected playerColor σ)) in
  ∃ out,
    exec [connection playerColor; connection playerColor'; close A] σ
      = Normal tt σ' out ∧
    delivered [connection playerColor; connection playerColor'; close A] σ ∧
    sockets σ' !! B =
      Some {| ws_id := playerId_of MAX_EXACT; readyState := OPEN |} ∧
    B ∈ open_clients σ' ∧
    players σ' !! playerId_of MAX_EXACT = None.
Proof.
  intros Hc A B σ'.
  set (σ1 := connected playerColor σ).
  set (σ2 := connected playerColor' σ1).
  assert (HA : sockets σ2 !! A =
               Some {| ws_id := playerId_of MAX_EXACT; readyState := OPEN |}).
  { unfold σ2, σ1.
    cbn [sockets connected with_new_socket with_players with_nextPlayerId].
    rewrite lookup_app_l by (rewrite length_app; cbn [length]; lia).
    rewrite Hc. by apply list_lookup_middle. }
  assert (HB : sockets σ2 !! B =
               Some {| ws_id := playerId_of MAX_EXACT; readyState := OPEN |}).
  { unfold σ2, σ1.
    cbn [nextPlayerId sockets connected with_new_socket with_players
         with_nextPlayerId].
    rewrite Hc, increment_at_MAX_EXACT. apply list_lookup_middle.
    rewrite length_app. cbn [length]. unfold B. lia. }
  assert (Hclients : clients σ2 = clients σ ++ [A; B]).
  { unfold σ2, σ1.
    cbn [sockets clients connected with_new_socket with_players
         with_nextPlayerId].
    rewrite <- app_assoc, length_app. cbn [length app]. unfold A, B.
    by rewrite Nat.add_1_r. }
  assert (HB' : sockets σ' !! B =
                Some {| ws_id := playerId_of MAX_EXACT; readyState := OPEN |}).
  { unfold σ'.
    cbn [sockets disconnected with_players without_client with_readyState].
    rewrite list_lookup_alter_ne by (unfold A, B; lia). exact HB. }
  pose proof (step_close A _ σ2 HA) as Hclose. cbn [ws_id] in Hclose.
  fold σ' in Hclose.
  eexists. split; [|split; [|split; [exact HB'|split]]].
  - cbn [exec].
    rewrite (bind_Normal _ _ _ _ _ _ (step_connection playerColor σ)).
    fold σ1.
    rewrite (bind_Normal _ _ _ _ _ _ (step_connection playerColor' σ1)).
    fold σ2. rewrite (bind_Normal _ _ _ _ _ _ Hclose). reflexivity.
  - cbn [delivered emitted_in]. rewrite !step_connection. cbn [state_of].
    fold σ1 σ2. rewrite Hclients. split; [done|]. split; [done|].
    split; [|done]. apply elem_of_app. right. by left.
  - unfold open_clients. apply list_elem_of_filter. split.
    + unfold is_open. by rewrite HB'.
    + unfold σ'.
      cbn [clients disconnected with_players without_client with_readyState].
      fold σ1. fold σ2. rewrite Hclients. apply list_elem_of_filter. split.
      * unfold A, B. lia.
      * apply elem_of_app. right. right. by left.
  - unfold σ'. cbn [players disconnected with_players]. apply lookup_delete_eq.
Qed.

Lemma shared_id_run_state (N : nat) :
  Z.of_nat N = MAX_EXACT - 1 →
  let σ := state_of (exec (shared_id_run N) initial) in
  delivered (shared_id_run N) initial ∧
  sockets σ !! S N =
    Some {| ws_id := "player-9007199254740992"; readyState := OPEN |} ∧
  S N ∈ open_clients σ ∧
  players σ !! "player-9007199254740992" = None.
Proof.
  intros HN σ.
  destruct (counted_out_run N "#3FA2C1" HN) as (σ0 & out0 & Hrun & Hc & Hl & _).
  destruct (shared_id_state "#0B7D55" "#C0FFEE" σ0 Hc)
    as (out & Hexec & Hdel & Hs & Hopen & Hnone).
  rewrite Hl in Hexec, Hdel, Hs, Hopen, Hnone.
  rewrite playerId_of_MAX_EXACT in Hexec, Hs, Hopen, Hnone.
  destruct (exec_app _ [connection "#0B7D55"; connection "#C0FFEE"; close N]
              _ _ _ Hrun) as [Hstate _].
  unfold σ, shared_id_run. rewrite Hstate, Hexec. cbn [state_of].
  split; [|split; [exact Hs|split; [exact Hopen|exact Hnone]]].
  exact (delivered_app _ _ _ _ _ Hrun (delivered_connects _ _ _) Hdel).
Qed.

(** * The claims *)

Lemma strict_eq_JString (s : string) : strict_eq (JString s) s = true.
Proof. cbn. by apply bool_decide_eq_true_2. Qed.

Lemma onMessage_movement ws_id props σ :
  property props "type" = JString "movement" →
  onMessage ws_id (json (JObject props)) σ =
  case_movement ws_id (JObject props) σ.
Proof.
  intros Ht. rewrite onMessage_object. cbn zeta.
  by rewrite Ht, strict_eq_JString.
Qed.

Lemma onMessage_chat ws_id props σ :
  property props "type" = JString "chat" →
  onMessage ws_id (json (JObject props)) σ = Throw ReferenceError σ [].
Proof.
  intros Ht. rewrite onMessage_object. cbn zeta. rewrite Ht.
  replace (strict_eq (JString "chat") "movement") with false by done.
  by rewrite strict_eq_JString.
Qed.

(** C4. In every reachable state every player of the registry has
    [0 ≤ x ≤ WORLD_SIZE - PLAYER_SIZE] and [0 ≤ y ≤ WORLD_SIZE - PLAYER_SIZE]:
    the initial position is inside and no movement leaves the range. *)
Theorem world_bounds σ ws_id player :
  reachable σ →
  players σ !! ws_id = Some player →
  (0 ≤ Player.x player ≤ WORLD_SIZE - PLAYER_SIZE) ∧
  (0 ≤ Player.y player ≤ WORLD_SIZE - PLAYER_SIZE).
Proof.
  intros Hσ Hp.
  by apply (registry_invariant in_world new_player_in_world
              step_of_in_world σ Hσ ws_id player).
Qed.

Lemma world_bounds_witness :
  reachable at_west_wall ∧
  players at_west_wall !! "player-1" =
    Some (Player.mk 0 240 "#3FA2C1" "Player 1" "player-1") ∧
  (0 ≤ 0 ≤ WORLD_SIZE - PLAYER_SIZE) ∧ (0 ≤ 240 ≤ WORLD_SIZE - PLAYER_SIZE).
Proof.
  assert (Hr : reachable at_west_wall) by (eexists; reflexivity).
  assert (Hp : players at_west_wall !! "player-1" =
               Some (Player.mk 0 240 "#3FA2C1" "Player 1" "player-1"))
    by (vm_compute; reflexivity).
  split; [exact Hr|]. split; [exact Hp|].
  exact (world_bounds at_west_wall "player-1" _ Hr Hp).
Defined.

(** C10. With [WORLD_SIZE = 500], [PLAYER_SIZE = 20] and
    [MOVEMENT_SPEED = 5], in every reachable state the [x] and [y] of every
    player are integer multiples of [MOVEMENT_SPEED]. *)
Theorem coordinates_on_grid σ ws_id player :
  reachable σ →
  players σ !! ws_id = Some player →
  (MOVEMENT_SPEED | Player.x player) ∧ (MOVEMENT_SPEED | Player.y player).
Proof.
  intros Hσ Hp.
  by apply (registry_invariant on_grid new_player_on_grid
              step_of_on_grid σ Hσ ws_id player).
Qed.

Lemma coordinates_on_grid_witness :
  reachable at_west_wall ∧
  players at_west_wall !! "player-1" =
    Some (Player.mk 0 240 "#3FA2C1" "Player 1" "player-1") ∧
  (MOVEMENT_SPEED | 0) ∧ (MOVEMENT_SPEED | 240).
Proof.
  assert (Hr : reachable at_west_wall) by (eexists; reflexivity).
  assert (Hp : players at_west_wall !! "player-1" =
               Some (Player.mk 0 240 "#3FA2C1" "Player 1" "player-1"))
    by (vm_compute; reflexivity).
  split; [exact Hr|]. split; [exact Hp|].
  exact (coordinates_on_grid at_west_wall "player-1" _ Hr Hp).
Defined.

(** C8. For every player and every movement message, if the resolved
    position equals the current one on both axes, the registry is left as
    it is and no [playerMoved] frame is sent to anyone. *)
Theorem unchanged_position_is_silent σ ws_id player props :
  players σ !! ws_id = Some player →
  property props "type" = JString "movement" →
  resolve (property props "direction") player =
    (Player.x player, Player.y player) →
  onMessage ws_id (json (JObject props)) σ = Normal tt σ [].
Proof.
  intros Hp Ht Hr. rewrite onMessage_movement by done.
  pose proof (case_movement_present _ props _ _ Hp) as ->.
  unfold step_of. rewrite Hr. cbn [fst snd moved Player.x Player.y].
  by rewrite !bool_decide_eq_false_2 by (intros H; by apply H).
Qed.

Lemma unchanged_position_is_silent_witness :
  players at_west_wall !! "player-1" =
    Some (Player.mk 0 240 "#3FA2C1" "Player 1" "player-1") ∧
  onMessage "player-1" (movement_frame "a") at_west_wall =
    Normal tt at_west_wall [].
Proof.
  assert (Hp : players at_west_wall !! "player-1" =
               Some (Player.mk 0 240 "#3FA2C1" "Player 1" "player-1"))
    by (vm_compute; reflexivity).
  split; [exact Hp|].
  apply (unchanged_position_is_silent at_west_wall "player-1" _
           [("type", JString "movement"); ("direction", JString "a")] Hp);
    reflexivity.
Defined.

(** C1, as the code has it.  The direction vocabulary is [w], [a], [s],
    [d]; every other value of [direction] leaves the position as it is.  For
    every player whose registry entry is at the centre, a movement message
    with direction [d] sets [x] to [x + MOVEMENT_SPEED], leaves [y], and
    sends [playerMoved] with the mover's id and the new coordinates to all
    open connections, the sender included. *)
Theorem move_right_from_centre σ ws_id player props :
  players σ !! ws_id = Some player →
  Player.x player = centre →
  Player.y player = centre →
  property props "type" = JString "movement" →
  property props "direction" = JString "d" →
  let x' := Player.x player + MOVEMENT_SPEED in
  let y' := Player.y player in
  let σ' := relocated ws_id (moved player x' y') σ in
  let out := to_all (open_clients σ') (playerMoved ws_id x' y') in
  onMessage ws_id (json (JObject props)) σ = Normal tt σ' out ∧
  players σ' !! ws_id = Some (moved player x' y') ∧
  (∀ client, client ∈ clients σ → is_open σ client →
             (client, playerMoved ws_id x' y') ∈ out) ∧
  resolve (JString "w") player =
    (Player.x player, Z.max 0 (Player.y player - MOVEMENT_SPEED)) ∧
  resolve (JString "a") player =
    (Z.max 0 (Player.x player - MOVEMENT_SPEED), Player.y player) ∧
  resolve (JString "s") player =
    (Player.x player,
     Z.min (WORLD_SIZE - PLAYER_SIZE) (Player.y player + MOVEMENT_SPEED)) ∧
  resolve (JString "d") player =
    (Z.min (WORLD_SIZE - PLAYER_SIZE) (Player.x player + MOVEMENT_SPEED),
     Player.y player) ∧
  (∀ direction, direction ∉ JString <$> ["w"; "a"; "s"; "d"] →
                resolve direction player = (Player.x player, Player.y player)).
Proof.
  intros Hp Hx Hy Ht Hd x' y' σ' out.
  assert (Hr : resolve (JString "d") player = (x', y')).
  { unfold resolve, x', y'. cbn. rewrite Hx. reflexivity. }
  split; [|split; [|split; [|do 4 (split; [reflexivity|])]]].
  - rewrite onMessage_movement by done.
    pose proof (case_movement_present _ props _ _ Hp) as ->.
    unfold step_of. rewrite Hd, Hr. cbn [fst snd moved Player.x Player.y].
    rewrite (bool_decide_eq_true_2 (x' ≠ Player.x player))
      by (unfold x', MOVEMENT_SPEED; lia).
    reflexivity.
  - apply lookup_insert_eq.
  - intros client Hc Ho. unfold out, to_all.
    apply (list_elem_of_fmap_2 (λ c, (c, playerMoved ws_id x' y'))).
    apply list_elem_of_filter. done.
  - intros direction Hn. unfold resolve.
    destruct direction as [| | | |str| |]; try reflexivity.
    cbn. repeat case_bool_decide; subst; try reflexivity;
      exfalso; apply Hn; cbn; set_solver.
Qed.

Lemma move_right_from_centre_witness :
  players alone !! "player-1" =
    Some (Player.mk 240 240 "#3FA2C1" "Player 1" "player-1") ∧
  onMessage "player-1" (movement_frame "d") alone =
    Normal tt
      (relocated "player-1"
         (Player.mk 245 240 "#3FA2C1" "Player 1" "player-1") alone)
      [(0%nat, playerMoved "player-1" 245 240)].
Proof.
  assert (Hp : players alone !! "player-1" =
               Some (Player.mk 240 240 "#3FA2C1" "Player 1" "player-1"))
    by (vm_compute; reflexivity).
  split; [exact Hp|].
  exact (proj1 (move_right_from_centre alone "player-1" _
                  [("type", JString "movement"); ("direction", JString "d")]
                  Hp eq_refl eq_refl eq_refl eq_refl)).
Defined.

(** C1 as stated fails: direction [right] is not one the server knows.  A
    player at the centre who sends it stays at [x = 240], and nothing is
    sent, although the sender's connection is open. *)
Lemma right_is_not_a_direction :
  players alone !! "player-1" =
    Some (Player.mk 240 240 "#3FA2C1" "Player 1" "player-1") ∧
  open_clients alone = [0%nat] ∧
  onMessage "player-1" (movement_frame "right") alone = Normal tt alone [] ∧
  ¬ (∃ σ' out,
       onMessage "player-1" (movement_frame "right") alone = Normal tt σ' out ∧
       Player.x <$> players σ' !! "player-1" = Some (240 + MOVEMENT_SPEED) ∧
       (0%nat, playerMoved "player-1" (240 + MOVEMENT_SPEED) 240) ∈ out).
Proof.
  assert (He : onMessage "player-1" (movement_frame "right") alone
               = Normal tt alone []) by (vm_compute; reflexivity).
  split; [vm_compute; reflexivity|]. split; [vm_compute; reflexivity|].
  split; [exact He|].
  intros (σ' & out & Hrun & _ & Hin). rewrite He in Hrun.
  injection Hrun as _ <-. by apply elem_of_nil in Hin.
Qed.

(** C2, what the code does.  Every chat message makes the listener raise
    a [ReferenceError] before anything is sent: [case 'chat'] reads the
    binding [player], which only [case 'movement'] initialises.  No [chat]
    envelope ever reaches a client, whether or not the sender is in the
    registry. *)
Theorem chat_always_raises σ ws_id props :
  property props "type" = JString "chat" →
  onMessage ws_id (json (JObject props)) σ = Throw ReferenceError σ [].
Proof. apply onMessage_chat. Qed.

Lemma chat_always_raises_witness :
  players alone !! "player-1" =
    Some (Player.mk 240 240 "#3FA2C1" "Player 1" "player-1") ∧
  open_clients alone = [0%nat] ∧
  onMessage "player-1" (chat_frame "hello") alone =
    Throw ReferenceError alone [].
Proof.
  split; [vm_compute; reflexivity|]. split; [vm_compute; reflexivity|].
  exact (chat_always_raises alone "player-1"
           [("type", JString "chat"); ("message", JString "hello")] eq_refl).
Defined.

(** C3, what the code does.  When the sender has no entry in the registry,
    a movement message is a no-op: the state is unchanged and nothing is
    sent.  A chat message leaves the state unchanged and sends nothing too,
    but it raises a [ReferenceError]. *)
Theorem absent_sender σ ws_id props :
  players σ !! ws_id = None →
  (property props "type" = JString "movement" →
   onMessage ws_id (json (JObject props)) σ = Normal tt σ []) ∧
  (property props "type" = JString "chat" →
   onMessage ws_id (json (JObject props)) σ = Throw ReferenceError σ []).
Proof.
  intros Hnone. split; intros Ht.
  - rewrite onMessage_movement by done. by apply case_movement_absent.
  - by apply onMessage_chat.
Qed.

(** A sender without an entry, on an open socket: once the counter has
    stopped, two clients are given the same id; the first leaves, and the
    frames of the second find no entry. *)
Lemma absent_sender_witness :
  let N := Z.to_nat (MAX_EXACT - 1) in
  let σ := state_of (exec (shared_id_run N) initial) in
  delivered (shared_id_run N) initial ∧
  sockets σ !! S N =
    Some {| ws_id := "player-9007199254740992"; readyState := OPEN |} ∧
  S N ∈ open_clients σ ∧
  players σ !! "player-9007199254740992" = None ∧
  step (message (S N) (movement_frame "d")) σ = Normal tt σ [] ∧
  step (message (S N) (chat_frame "hello")) σ = Throw ReferenceError σ [].
Proof.
  intros N σ.
  destruct (shared_id_run_state N MAX_EXACT_as_nat)
    as (Hdel & Hs & Hopen & Hnone).
  split; [exact Hdel|]. split; [exact Hs|]. split; [exact Hopen|].
  split; [exact Hnone|].
  destruct (absent_sender σ "player-9007199254740992"
              [("type", JString "movement"); ("direction", JString "d")]
              Hnone) as [Hmove _].
  destruct (absent_sender σ "player-9007199254740992"
              [("type", JString "chat"); ("message", JString "hello")]
              Hnone) as [_ Hchat].
  split.
  - cbn [step]. rewrite (listener_present _ _ _ _ Hs). exact (Hmove eq_refl).
  - cbn [step]. rewrite (listener_present _ _ _ _ Hs). exact (Hchat eq_refl).
Defined.

(** Parts of C7 that hold: a frame that does not parse is dropped, and so
    is a parsed object whose [type] is neither ['movement'] nor ['chat'],
    provided the [type] is [flat] and can be printed in the warning. *)
Lemma malformed_is_dropped ws_id raw σ :
  onMessage ws_id (malformed raw) σ = Normal tt σ [].
Proof. apply onMessage_malformed. Qed.

Lemma unknown_type_is_dropped ws_id props σ :
  strict_eq (property props "type") "movement" = false →
  strict_eq (property props "type") "chat" = false →
  flat (property props "type") = true →
  ToString_raises (property props "type") = false →
  onMessage ws_id (json (JObject props)) σ = Normal tt σ [].
Proof.
  intros Hm Hc _ Hs. rewrite onMessage_object. cbn zeta.
  rewrite Hm, Hc. unfold template. by rewrite Hs.
Qed.

(** C7, where the code fails it.  The frame [null] parses and has no
    [type] of ['movement'] or ['chat']; reading [parsedMessage.type] raises
    a [TypeError] out of the listener, whatever the state, and the process
    handles no further frame.  The same happens in the [default] clause for
    an object whose [type] is an object with an own [toString] property,
    when the warning prints it. *)
Theorem unrecognised_frames_can_raise :
  (∀ ws_id σ, onMessage ws_id (json null) σ = Throw TypeError σ []) ∧
  (∀ ws_id σ,
     onMessage ws_id
       (json (JObject [("type", JObject [("toString", JNumber "1")])])) σ
     = Throw TypeError σ []) ∧
  JSON_parse (json null) = inr null ∧
  step (message 0%nat (json null)) alone = Throw TypeError alone [] ∧
  exec [message 0%nat (json null); message 0%nat (movement_frame "d")] alone
    = Throw TypeError alone [].
Proof.
  split; [intros; apply onMessage_null|]. split; [reflexivity|].
  split; [reflexivity|]. split; vm_compute; reflexivity.
Qed.

(** C5. On every connect the new player is first inserted into the
    registry; then the new socket receives, in this order, [init] with its
    own id, its player state as the registry holds it, at
    [x = y = WORLD_SIZE / 2 - PLAYER_SIZE / 2], and the world dimensions,
    then [currentPlayers] with the registry as it is after the insertion,
    the new player included; every other open connection, and nobody else,
    receives [playerJoined] with the new player's state. *)
Theorem connect_protocol playerColor σ :
  let ws := length (sockets σ) in
  let playerId := playerId_of (nextPlayerId σ) in
  let player := Player.mk (WORLD_SIZE / 2 - PLAYER_SIZE / 2)
                          (WORLD_SIZE / 2 - PLAYER_SIZE / 2)
                          playerColor (playerName_of playerId) playerId in
  ∃ σ1 σ2 σ' joined,
    onConnection playerColor σ =
      Normal tt σ' ([(ws, init playerId (players σ' !! playerId)
                               WORLD_SIZE PLAYER_SIZE);
                     (ws, currentPlayers (players σ'))] ++ joined) ∧
    journal (onConnection playerColor) σ =
      [assigned_to σ1; assigned_to σ2; assigned_to σ';
       written_to ws (init playerId (players σ2 !! playerId)
                           WORLD_SIZE PLAYER_SIZE);
       written_to ws (currentPlayers (players σ2))]
      ++ ((λ '(client, msg), written_to client msg) <$> joined) ∧
    players σ1 = players σ ∧
    players σ2 = <[playerId := player]> (players σ) ∧
    players σ' = players σ2 ∧
    players σ' !! playerId = Some player ∧
    sockets σ' !! ws = Some {| ws_id := playerId; readyState := OPEN |} ∧
    joined = to_all (filter (λ c, c ≠ ws) (open_clients σ'))
                    (playerJoined (players σ' !! playerId)) ∧
    (∀ client msg, (client, msg) ∈ joined ↔
       msg = playerJoined (Some player) ∧ client ∈ clients σ' ∧
       is_open σ' client ∧ client ≠ ws).
Proof.
  intros ws playerId player.
  exists (with_nextPlayerId (increment (nextPlayerId σ)) σ).
  exists (with_players <[playerId := player]>
            (with_nextPlayerId (increment (nextPlayerId σ)) σ)).
  exists (connected playerColor σ). eexists.
  assert (Hp : players (connected playerColor σ) !! playerId = Some player)
    by apply lookup_insert_eq.
  split; [rewrite onConnection_run, Hp; reflexivity|].
  split.
  { rewrite onConnection_journal. cbn zeta. unfold to_all.
    rewrite <- list_fmap_compose.
    cbn [players connected with_new_socket with_players with_nextPlayerId].
    rewrite !lookup_insert_eq. reflexivity. }
  split; [reflexivity|]. split; [reflexivity|]. split; [reflexivity|].
  split; [exact Hp|].
  split; [apply list_lookup_middle; reflexivity|].
  split; [rewrite Hp; reflexivity|].
  intros client msg. unfold to_all. rewrite list_elem_of_fmap. split.
  - intros (c & [= -> ->] & Hc%list_elem_of_filter).
    destruct Hc as [Hne Hc%list_elem_of_filter]. tauto.
  - intros (-> & Hc & Ho & Hne). exists client. split; [done|].
    apply list_elem_of_filter. split; [done|]. by apply list_elem_of_filter.
Qed.

(** C9, within the range of the counter.  The counter starts at 1 and
    every connect, and nothing else, steps it: by one below [MAX_EXACT],
    not at all at [MAX_EXACT].  The connect is assigned the value the
    counter had.  So in every run with at most [MAX_EXACT] connects the ids
    assigned are [player-1], [player-2], ... in this order: they are
    pairwise distinct and their numbers increase strictly, and no id is
    assigned twice. *)
Theorem ids_unique_and_increasing evs :
  connections evs ≤ MAX_EXACT →
  let c := exec evs initial in
  nextPlayerId initial = 1 ∧
  (∀ ev σ, nextPlayerId (state_of (step ev σ)) =
           if is_connection ev then increment (nextPlayerId σ)
           else nextPlayerId σ) ∧
  (∀ n, n < MAX_EXACT → increment n = n + 1) ∧
  increment MAX_EXACT = MAX_EXACT ∧
  (∀ ev σ, assigned (sent (step ev σ)) =
           if is_connection ev then [playerId_of (nextPlayerId σ)] else []) ∧
  assigned (sent c) =
    playerId_of <$> seqZ 1 (Z.of_nat (length (assigned (sent c)))) ∧
  (connections evs < MAX_EXACT →
   nextPlayerId (state_of c) = 1 + Z.of_nat (length (assigned (sent c)))) ∧
  NoDup (assigned (sent c)) ∧
  (∀ i j a b, assigned (sent c) !! i = Some (playerId_of a) →
              assigned (sent c) !! j = Some (playerId_of b) →
              (i < j)%nat → a < b).
Proof.
  intros Hbound c. pose proof MAX_EXACT_pos as Hpos.
  pose proof (exec_assigned evs initial) as Ha. fold c in Ha.
  change (nextPlayerId initial) with 1 in Ha.
  specialize (Ha ltac:(lia) ltac:(lia)).
  split; [done|]. split; [apply step_counter|].
  split; [apply increment_below|]. split; [apply increment_at_MAX_EXACT|].
  split; [apply step_assigned|]. split; [done|]. split.
  { intros Hlt. apply (exec_counter evs initial).
    change (nextPlayerId initial) with 1. lia. }
  rewrite Ha. split.
  - apply (NoDup_fmap_2 _), NoDup_seqZ.
  - intros i j a b Hi Hj Hij.
    rewrite list_lookup_fmap in Hi, Hj.
    destruct (seqZ _ _ !! i) as [a'|] eqn:Ei; [|done].
    destruct (seqZ _ _ !! j) as [b'|] eqn:Ej; [|done].
    change (Some (playerId_of a') = Some (playerId_of a)) in Hi.
    change (Some (playerId_of b') = Some (playerId_of b)) in Hj.
    apply (inj Some), (inj playerId_of) in Hi, Hj. subst a' b'.
    apply lookup_seqZ in Ei as [-> _]. apply lookup_seqZ in Ej as [-> _]. lia.
Qed.

Lemma ids_unique_and_increasing_witness :
  connections [connection "#3FA2C1"; connection "#0B7D55";
               close 0%nat; connection "#C0FFEE"] ≤ MAX_EXACT ∧
  assigned (sent (exec [connection "#3FA2C1"; connection "#0B7D55";
                        close 0%nat; connection "#C0FFEE"] initial))
  = ["player-1"; "player-2"; "player-3"] ∧
  NoDup ["player-1"; "player-2"; "player-3"].
Proof.
  assert (Hle : connections [connection "#3FA2C1"; connection "#0B7D55";
                             close 0%nat; connection "#C0FFEE"] ≤ MAX_EXACT)
    by (vm_compute; discriminate).
  pose proof (ids_unique_and_increasing
                [connection "#3FA2C1"; connection "#0B7D55";
                 close 0%nat; connection "#C0FFEE"] Hle) as H.
  cbv zeta in H. destruct H as (_ & _ & _ & _ & _ & _ & _ & Hnodup & _).
  assert (Hids : assigned (sent (exec [connection "#3FA2C1";
                                       connection "#0B7D55"; close 0%nat;
                                       connection "#C0FFEE"] initial))
                 = ["player-1"; "player-2"; "player-3"])
    by (vm_compute; reflexivity).
  split; [exact Hle|]. split; [exact Hids|]. rewrite <- Hids. exact Hnodup.
Defined.

(** C9 as stated fails: the counter is a JavaScript number, and
    [2^53 + 1] is not one.  After [2^53] connects the counter stays at
    [2^53], and the next connect is assigned [player-9007199254740992] a
    second time. *)
Lemma ids_are_reused_when_the_counter_stops :
  let evs := replicate (Z.to_nat (MAX_EXACT + 1)) (connection "#3FA2C1") in
  let ids := assigned (sent (exec evs initial)) in
  connections evs = MAX_EXACT + 1 ∧
  ids = (playerId_of <$> seqZ 1 (MAX_EXACT - 1))
        ++ ["player-9007199254740992"; "player-9007199254740992"] ∧
  nextPlayerId (state_of (exec evs initial)) = MAX_EXACT ∧
  ¬ NoDup ids.
Proof.
  intros evs ids. pose proof MAX_EXACT_pos as Hpos.
  assert (Hevs : evs = replicate (Z.to_nat (MAX_EXACT - 1))
                                 (connection "#3FA2C1")
                       ++ [connection "#3FA2C1"; connection "#3FA2C1"]).
  { unfold evs.
    replace (Z.to_nat (MAX_EXACT + 1))
      with (Z.to_nat (MAX_EXACT - 1) + 2)%nat by lia.
    by rewrite replicate_add. }
  destruct (counted_out_run _ "#3FA2C1" MAX_EXACT_as_nat)
    as (σ & out & Hrun & Hc & _ & Ha).
  destruct (exec_app _ [connection "#3FA2C1"; connection "#3FA2C1"] _ _ _ Hrun)
    as [Hstate Hsent].
  destruct (exec_cons_Normal _ [connection "#3FA2C1"] _ _ _
              (step_connection "#3FA2C1" σ)) as [Hstate1 Hsent1].
  destruct (exec_cons_Normal _ [] _ _ _
              (step_connection "#3FA2C1" (connected "#3FA2C1" σ)))
    as [Hstate2 Hsent2].
  rewrite exec_nil in Hstate2, Hsent2. cbn [state_of sent] in Hstate2, Hsent2.
  assert (Hids : ids = (playerId_of <$> seqZ 1 (MAX_EXACT - 1))
                       ++ ["player-9007199254740992";
                           "player-9007199254740992"]).
  { unfold ids. rewrite Hevs, Hsent, Hsent1, Hsent2.
    rewrite !assigned_app, !assigned_welcome, Ha.
    cbn [nextPlayerId connected with_new_socket with_players
         with_nextPlayerId].
    rewrite Hc, increment_at_MAX_EXACT, playerId_of_MAX_EXACT.
    generalize (playerId_of <$> seqZ 1 (MAX_EXACT - 1)). reflexivity. }
  split; [|split; [exact Hids|split]].
  - unfold evs. rewrite connections_replicate. lia.
  - rewrite Hevs, Hstate, Hstate1, Hstate2.
    cbn [nextPlayerId connected with_new_socket with_players
         with_nextPlayerId].
    by rewrite Hc, !increment_at_MAX_EXACT.
  - rewrite Hids. intros [_ [_ Hnodup]]%NoDup_app.
    apply NoDup_cons in Hnodup as [Hin _]. apply Hin. by left.
Qed.

(** ** Departed players stay out *)

Lemma allocated_step ev σ : allocated σ → allocated (state_of (step ev σ)).
Proof.
  intros [Hle Hσ].
  assert (Hkeep : ∀ k, k < nextPlayerId σ ∨ k = MAX_EXACT →
                       k < nextPlayerId (state_of (step ev σ)) ∨ k = MAX_EXACT).
  { pose proof (step_counter_mono ev σ). lia. }
  split.
  { rewrite step_counter. pose proof (increment_in_range _ Hle).
    by destruct (is_connection ev). }
  revert Hkeep.
  destruct (step_has_shape ev σ); cbn [state_of]; intros Hkeep ws' s' Hs.
  - cbn in Hs. apply lookup_snoc_Some in Hs as [[_ Hs]|[_ <-]].
    + destruct (Hσ _ _ Hs) as (k & -> & Hk). exists k. split; [done|auto].
    + exists (nextPlayerId σ). split; [done|].
      cbn [nextPlayerId connected with_new_socket with_players
           with_nextPlayerId].
      unfold increment. case_decide; lia.
  - destruct (Hσ _ _ Hs) as (k & -> & Hk). exists k. split; [done|auto].
  - destruct (Hσ _ _ Hs) as (k & -> & Hk). exists k. split; [done|auto].
  - destruct (Hσ _ _ Hs) as (k & -> & Hk). exists k. split; [done|auto].
  - cbn in Hs. rewrite list_lookup_alter in Hs.
    case_decide; [subst ws'|].
    + destruct (sockets σ !! ws) as [s0|] eqn:E0; [|done].
      injection Hs as <-. destruct (Hσ _ _ E0) as (k & Hid & Hk).
      exists k. split; [done|auto].
    + destruct (Hσ _ _ Hs) as (k & -> & Hk). exists k. split; [done|auto].
  - cbn in Hs. rewrite list_lookup_alter in Hs.
    case_decide; [subst ws'|].
    + destruct (sockets σ !! ws) as [s0|] eqn:E0; [|done].
      injection Hs as <-. destruct (Hσ _ _ E0) as (k & Hid & Hk).
      exists k. split; [done|auto].
    + destruct (Hσ _ _ Hs) as (k & -> & Hk). exists k. split; [done|auto].
Qed.

Lemma reachable_allocated σ : reachable σ → allocated σ.
Proof.
  apply reachable_invariant; [|apply allocated_step].
  split; [apply Z.lt_le_incl, MAX_EXACT_pos|]. intros ws s Hs. done.
Qed.

Lemma retired_step k ev σ :
  retired k σ →
  retired k (state_of (step ev σ)) ∧
  Forall (λ snapshot, snapshot !! playerId_of k = None)
         (snapshots (sent (step ev σ))).
Proof.
  intros [Hnone Hk].
  destruct (step_has_shape ev σ) as [playerColor| | |ws data s player d Hs Hp| |];
    cbn [state_of sent].
  - assert (Hnew : players (connected playerColor σ) !! playerId_of k = None).
    { cbn. rewrite lookup_insert_ne; [done|].
      intros ?%(inj playerId_of). lia. }
    rewrite snapshots_welcome. split; [split; [done|]|].
    + cbn [nextPlayerId connected with_new_socket with_players
           with_nextPlayerId].
      pose proof (increment_bounds (nextPlayerId σ)). lia.
    + by repeat constructor.
  - by repeat constructor.
  - by repeat constructor.
  - rewrite snapshots_to_all by done. split; [|constructor].
    split; [|done]. cbn. rewrite lookup_insert_ne; [done|]. congruence.
  - by repeat constructor.
  - rewrite snapshots_to_all by done. split; [|constructor].
    split; [|done]. cbn. apply lookup_delete_None. by right.
Qed.

Lemma retired_exec k evs σ :
  retired k σ →
  retired k (state_of (exec evs σ)) ∧
  Forall (λ snapshot, snapshot !! playerId_of k = None)
         (snapshots (sent (exec evs σ))).
Proof.
  revert σ. induction evs as [|ev evs IH]; intros σ Hσ.
  { split; [done|constructor]. }
  destruct (retired_step k ev σ Hσ) as [H1 Hout].
  destruct (step ev σ) as [[] σ1 out1|e σ1 out1] eqn:E; cbn [state_of sent] in *.
  - destruct (exec_cons_Normal ev evs _ _ _ E) as [-> ->].
    destruct (IH σ1 H1) as [H2 Hout2]. split; [done|].
    rewrite snapshots_app. by apply Forall_app.
  - by rewrite (exec_cons_Throw ev evs _ _ _ _ E).
Qed.

Lemma open_clients_disconnected ws ws_id σ :
  open_clients (disconnected ws ws_id σ) =
  filter (λ c, c ≠ ws) (open_clients σ).
Proof.
  unfold open_clients. cbn [clients disconnected with_players without_client
                             with_readyState].
  rewrite !list_filter_filter. apply list_filter_iff. intros c.
  unfold is_open. cbn [sockets disconnected with_players without_client
                        with_readyState].
  rewrite list_lookup_alter. case_decide; [subst c; tauto|tauto].
Qed.

Lemma step_close_journal ws s σ :
  sockets σ !! ws = Some s →
  let σ' := disconnected ws (ws_id s) σ in
  journal (step (close ws)) σ =
  [assigned_to (with_readyState ws CLOSED σ);
   assigned_to (without_client ws (with_readyState ws CLOSED σ));
   assigned_to σ']
  ++ ((λ c, written_to c (playerLeft (ws_id s))) <$> open_clients σ').
Proof.
  intros Hs σ'. cbn [step]. unfold listener.
  rewrite journal_bind. cbn [journal run gets app]. rewrite Hs.
  unfold transport_close.
  repeat (rewrite journal_bind; cbn [journal run gets modify app]).
  cbn [run modify mbind Js_bind then_]. by rewrite onClose_journal.
Qed.

(** C6, within the range of the counter.  On every disconnect the entry of
    the departing player is deleted before the [playerLeft] frames are
    written: the deletion is the first effect of the listener and every
    frame follows it.  The frames go, with the departed id, to all remaining
    open connections.  From then on the registry never holds the departed
    id again, provided the id is not the one at which the counter stops: no
    later state has it, and no [currentPlayers] snapshot sent to a later
    client contains it. *)
Theorem disconnect_protocol σ ws s :
  reachable σ →
  sockets σ !! ws = Some s →
  let σ' := disconnected ws (ws_id s) σ in
  step (close ws) σ =
    Normal tt σ' (to_all (open_clients σ') (playerLeft (ws_id s))) ∧
  journal (step (close ws)) σ =
    [assigned_to (with_readyState ws CLOSED σ);
     assigned_to (without_client ws (with_readyState ws CLOSED σ));
     assigned_to σ']
    ++ ((λ c, written_to c (playerLeft (ws_id s))) <$> open_clients σ') ∧
  (∀ σ0,
     journal (onClose (ws_id s)) σ0 =
       assigned_to (with_players (delete (ws_id s)) σ0)
       :: ((λ c, written_to c (playerLeft (ws_id s)))
             <$> open_clients (with_players (delete (ws_id s)) σ0))) ∧
  players σ' !! ws_id s = None ∧
  open_clients σ' = filter (λ c, c ≠ ws) (open_clients σ) ∧
  (ws_id s ≠ playerId_of MAX_EXACT →
   ∀ evs,
     players (state_of (exec evs σ')) !! ws_id s = None ∧
     Forall (λ snapshot, snapshot !! ws_id s = None)
            (snapshots (sent (exec evs σ')))).
Proof.
  intros Hσ Hs σ'.
  split; [by apply step_close|].
  split; [by apply step_close_journal|].
  split; [intros σ0; apply onClose_journal|].
  split; [apply lookup_delete_eq|].
  split; [apply open_clients_disconnected|].
  intros Hne evs.
  destruct (reachable_allocated σ Hσ) as [_ Hall].
  destruct (Hall ws s Hs) as (k & Hid & [Hk| ->]); [|done].
  rewrite Hid.
  assert (Hret : retired k σ').
  { split; [|done]. unfold σ'. rewrite Hid. apply lookup_delete_eq. }
  destruct (retired_exec k evs σ' Hret) as [[Hnone _] Hsnap]. done.
Qed.

Lemma disconnect_protocol_witness :
  reachable pair ∧
  sockets pair !! 0%nat = Some {| ws_id := "player-1"; readyState := OPEN |} ∧
  step (close 0%nat) pair =
    Normal tt pair_minus_first [(1%nat, playerLeft "player-1")] ∧
  players pair_minus_first !! "player-1" = None ∧
  Forall (λ snapshot, snapshot !! "player-1" = None)
    (snapshots (sent (exec [connection "#C0FFEE"]
                           (disconnected 0 "player-1" pair)))).
Proof.
  assert (Hr : reachable pair) by (eexists; reflexivity).
  assert (Hs : sockets pair !! 0%nat =
               Some {| ws_id := "player-1"; readyState := OPEN |})
    by (vm_compute; reflexivity).
  assert (Hne : "player-1" ≠ playerId_of MAX_EXACT)
    by (vm_compute; discriminate).
  destruct (disconnect_protocol pair 0%nat _ Hr Hs)
    as (Hstep & _ & _ & Hgone & _ & Hlater).
  split; [exact Hr|]. split; [exact Hs|]. split; [|split].
  - rewrite Hstep. vm_compute. reflexivity.
  - vm_compute. reflexivity.
  - exact (proj2 (Hlater Hne [connection "#C0FFEE"])).
Defined.

Lemma returning_id_run_state (N : nat) :
  Z.of_nat N = MAX_EXACT - 1 →
  let σ := state_of (exec (replicate N (connection "#3FA2C1")
                           ++ [connection "#0B7D55"]) initial) in
  let σ' := disconnected N "player-9007199254740992" σ in
  reachable σ ∧
  delivered (returning_id_run N) initial ∧
  sockets σ !! N =
    Some {| ws_id := "player-9007199254740992"; readyState := OPEN |} ∧
  state_of (step (close N) σ) = σ' ∧
  players σ' !! "player-9007199254740992" = None ∧
  snapshots (sent (exec [connection "#C0FFEE"] σ')) =
    [<["player-9007199254740992" :=
         Player.mk 240 240 "#C0FFEE" "Player 9007199254740992"
                   "player-9007199254740992"]> (players σ')] ∧
  ¬ Forall (λ snapshot, snapshot !! "player-9007199254740992" = None)
           (snapshots (sent (exec [connection "#C0FFEE"] σ'))).
Proof.
  intros HN σ σ'.
  destruct (counted_out_run N "#3FA2C1" HN) as (σ0 & out0 & Hrun & Hc & Hl & _).
  destruct (exec_app _ [connection "#0B7D55"] _ _ _ Hrun) as [Hstate _].
  destruct (exec_cons_Normal _ [] _ _ _ (step_connection "#0B7D55" σ0))
    as [Hstate1 _].
  rewrite exec_nil in Hstate1. cbn [state_of] in Hstate1.
  assert (Hσ : σ = connected "#0B7D55" σ0).
  { unfold σ. by rewrite Hstate, Hstate1. }
  assert (HA : sockets σ !! N =
               Some {| ws_id := "player-9007199254740992";
                       readyState := OPEN |}).
  { rewrite Hσ.
    cbn [sockets connected with_new_socket with_players with_nextPlayerId].
    rewrite Hc, playerId_of_MAX_EXACT. by apply list_lookup_middle. }
  assert (Hcounter : nextPlayerId σ' = MAX_EXACT).
  { unfold σ'. rewrite Hσ.
    cbn [nextPlayerId connected disconnected with_new_socket with_players
         with_nextPlayerId without_client with_readyState].
    by rewrite Hc, increment_at_MAX_EXACT. }
  assert (Hsnap : snapshots (sent (exec [connection "#C0FFEE"] σ')) =
                  [<["player-9007199254740992" :=
                       Player.mk 240 240 "#C0FFEE" "Player 9007199254740992"
                                 "player-9007199254740992"]> (players σ')]).
  { destruct (exec_cons_Normal _ [] _ _ _ (step_connection "#C0FFEE" σ'))
      as [_ ->].
    rewrite exec_nil. cbn [sent]. rewrite app_nil_r, snapshots_welcome.
    cbn [players connected with_new_socket with_players with_nextPlayerId].
    rewrite Hcounter, playerId_of_MAX_EXACT.
    assert (new_player MAX_EXACT "#C0FFEE" =
            Player.mk 240 240 "#C0FFEE" "Player 9007199254740992"
                      "player-9007199254740992") as ->
      by (vm_compute; reflexivity).
    reflexivity. }
  split; [by eexists|].
  split; [|split; [exact HA|split; [|split; [|split]]]].
  - unfold returning_id_run.
    eapply (delivered_app _ _ _ _ _ Hrun); [apply delivered_connects|].
    cbn [delivered emitted_in]. rewrite step_connection. cbn [state_of].
    fold (connected "#0B7D55" σ0). rewrite <- Hσ. split; [done|].
    split; [|done]. rewrite Hσ.
    cbn [clients connected with_new_socket with_players with_nextPlayerId
         sockets].
    rewrite Hl. apply elem_of_app. right. by left.
  - by rewrite (step_close _ _ _ HA).
  - unfold σ'. cbn [players disconnected with_players]. apply lookup_delete_eq.
  - exact Hsnap.
  - rewrite Hsnap. intros [Hnone _]%Forall_cons.
    by rewrite lookup_insert_eq in Hnone.
Qed.

(** C6 as stated fails when the counter has stopped.  After [2^53 - 1]
    connects a client connects and is given [player-9007199254740992]; it
    leaves, and its entry is deleted; the next client is given the same id,
    and the [currentPlayers] snapshot sent to it has an entry under the
    departed id. *)
Lemma departed_id_returns_when_the_counter_stops :
  let N := Z.to_nat (MAX_EXACT - 1) in
  let σ := state_of (exec (replicate N (connection "#3FA2C1")
                           ++ [connection "#0B7D55"]) initial) in
  let σ' := disconnected N "player-9007199254740992" σ in
  reachable σ ∧
  delivered (returning_id_run N) initial ∧
  sockets σ !! N =
    Some {| ws_id := "player-9007199254740992"; readyState := OPEN |} ∧
  state_of (step (close N) σ) = σ' ∧
  players σ' !! "player-9007199254740992" = None ∧
  snapshots (sent (exec [connection "#C0FFEE"] σ')) =
    [<["player-9007199254740992" :=
         Player.mk 240 240 "#C0FFEE" "Player 9007199254740992"
                   "player-9007199254740992"]> (players σ')] ∧
  ¬ Forall (λ snapshot, snapshot !! "player-9007199254740992" = None)
           (snapshots (sent (exec [connection "#C0FFEE"] σ'))).
Proof.
  exact (returning_id_run_state (Z.to_nat (MAX_EXACT - 1)) MAX_EXACT_as_nat).
Qed.

(** * Further properties of the server *)

(** ** Sockets and registry stay in step *)

Lemma sockets_with_readyState ws r σ i s' :
  sockets (with_readyState ws r σ) !! i = Some s' ↔
  ∃ s, sockets σ !! i = Some s ∧ ws_id s' = ws_id s ∧
       readyState s' = (if decide (ws = i) then r else readyState s).
Proof.
  cbn [sockets with_readyState]. rewrite list_lookup_alter.
  assert (∀ a b : WebSocket,
            ws_id a = ws_id b → readyState a = readyState b → a = b) as Heta.
  { intros [] []; cbn; congruence. }
  destruct (decide (ws = i)) as [->|Hne].
  - destruct (sockets σ !! i) as [s|]; cbn; split.
    + intros [= <-]. by exists s.
    + intros (s0 & [= <-] & Hid & Hr). f_equal. by apply Heta.
    + done.
    + by intros (s0 & [=] & _).
  - split.
    + intros Hs. by exists s'.
    + intros (s & Hs & Hid & Hr). rewrite Hs. f_equal. symmetry. by apply Heta.
Qed.

Lemma consistent_initial : consistent initial.
Proof.
  split; cbn; try done.
  intros ws_id'. rewrite lookup_empty. split; [by intros []|].
  by intros (ws & s & []%elem_of_nil & _).
Qed.

Lemma consistent_connected playerColor σ :
  nextPlayerId σ < MAX_EXACT →
  consistent σ → consistent (connected playerColor σ).
Proof.
  intros Hlt [Hcounter Hids Hreg Hent]. split.
  - cbn [nextPlayerId sockets connected with_new_socket with_players
         with_nextPlayerId].
    rewrite increment_below, length_app by done. cbn [length]. lia.
  - intros i s. cbn. intros [[_ Hs]|[-> <-]]%lookup_snoc_Some; [by apply Hids|].
    cbn. by rewrite Hcounter.
  - intros ws_id'. cbn [players clients sockets connected with_new_socket
                        with_players with_nextPlayerId].
    rewrite lookup_insert_is_Some, Hreg. split.
    + intros [<-|[_ (ws & s & Hc & Hs & Hid)]].
      * exists (length (sockets σ)), {| ws_id := playerId_of (nextPlayerId σ);
                                      readyState := OPEN |}.
        split; [apply elem_of_app; right; by apply list_elem_of_singleton|].
        split; [by apply list_lookup_middle|done].
      * exists ws, s. split; [apply elem_of_app; by left|].
        split; [by apply lookup_app_l_Some|done].
    + intros (ws & s & Hc & Hs & Hid).
      apply lookup_snoc_Some in Hs as [[_ Hs]|[Hws Hnew]]; [|subst ws s].
      * destruct (decide (playerId_of (nextPlayerId σ) = ws_id'));
          [by left|right]. split; [done|].
        apply elem_of_app in Hc as [Hc|Hc%list_elem_of_singleton].
        -- by exists ws, s.
        -- apply lookup_lt_Some in Hs. lia.
      * by left.
  - cbn. apply map_Forall_insert_2; [done|done].
Qed.

Lemma consistent_relocated σ ws_id' player direction :
  players σ !! ws_id' = Some player →
  consistent σ → consistent (relocated ws_id' (step_of direction player) σ).
Proof.
  intros Hp [Hcounter Hids Hreg Hent]. split; try done.
  - intros key. cbn [players clients sockets relocated with_players].
    rewrite lookup_insert_is_Some, <- Hreg. split.
    + intros [<-|[_ H]]; [by eexists|done].
    + intros H. destruct (decide (ws_id' = key)); [by left|by right].
  - cbn. apply map_Forall_insert_2; [|done]. by apply (Hent _ _ Hp).
Qed.

Lemma consistent_with_readyState ws r σ :
  consistent σ → consistent (with_readyState ws r σ).
Proof.
  intros [Hcounter Hids Hreg Hent]. split; try done.
  - cbn. by rewrite length_alter.
  - intros i s' (s & Hs & -> & _)%sockets_with_readyState. by apply Hids.
  - intros key. cbn [players clients]. rewrite Hreg. split.
    + intros (c & s & Hc & Hs & Hid).
      exists c, {| ws_id := ws_id s;
                   readyState := if decide (ws = c) then r else readyState s |}.
      split; [done|]. split; [|done].
      apply sockets_with_readyState. by exists s.
    + intros (c & s' & Hc & Hs' & Hid).
      apply sockets_with_readyState in Hs' as (s & Hs & Hid' & _).
      exists c, s. split; [done|]. split; [done|congruence].
Qed.

Lemma consistent_disconnected ws s σ :
  sockets σ !! ws = Some s →
  consistent σ → consistent (disconnected ws (ws_id s) σ).
Proof.
  intros Hs Hσ.
  pose proof (consistent_with_readyState ws CLOSED σ Hσ)
    as [Hcounter Hids Hreg Hent].
  destruct Hσ as [_ Hids0 _ _].
  split; try done.
  - intros key. cbn [players clients sockets disconnected with_players
                     without_client] in *. split.
    + intros [player [Hne Hp]%lookup_delete_Some].
      destruct (proj1 (Hreg key) (mk_is_Some _ _ Hp)) as (c & s' & Hc & Hs' & Hid).
      exists c, s'. split; [|done]. apply list_elem_of_filter. split; [|done].
      intros ->. apply sockets_with_readyState in Hs' as (s0 & Hs0 & Hid0 & _).
      congruence.
    + intros (c & s' & Hc & Hs' & Hid).
      apply list_elem_of_filter in Hc as [Hne Hc].
      destruct (proj2 (Hreg key)) as [player Hp]; [by exists c, s'|].
      exists player. apply lookup_delete_Some. split; [|done].
      rewrite (Hids0 _ _ Hs), <- Hid, (Hids _ _ Hs').
      intros ?%(inj playerId_of). lia.
  - cbn. by apply map_Forall_delete.
Qed.

Lemma consistent_step ev σ :
  nextPlayerId σ < MAX_EXACT →
  consistent σ → consistent (state_of (step ev σ)).
Proof.
  intros Hlt Hσ.
  destruct (step_has_shape ev σ) as [playerColor| | |ws data s player d Hs Hp|ws|ws s Hs];
    cbn [state_of]; try done.
  - by apply consistent_connected.
  - by apply consistent_relocated.
  - by apply consistent_with_readyState.
  - by apply consistent_disconnected.
Qed.

(** The sockets and the registry agree for as long as the counter counts. *)
Lemma reachable_consistent σ :
  reachable σ → nextPlayerId σ < MAX_EXACT → consistent σ.
Proof.
  apply (reachable_invariant (λ σ, nextPlayerId σ < MAX_EXACT → consistent σ)).
  - intros _. apply consistent_initial.
  - intros ev σ' IH Hlt. pose proof (step_counter_mono ev σ').
    apply consistent_step; [lia|apply IH; lia].
Qed.

(** X1. In every reachable state in which the counter is below
    [MAX_EXACT], the registry has an entry for an id exactly when a member
    of [wss.clients] carries that id: each connected socket has its player,
    and no player outlives its socket. *)
Theorem registry_matches_clients σ ws_id' :
  reachable σ →
  nextPlayerId σ < MAX_EXACT →
  (is_Some (players σ !! ws_id') ↔
   ∃ ws s, ws ∈ clients σ ∧ sockets σ !! ws = Some s ∧ ws_id s = ws_id').
Proof. intros Hσ Hlt. by apply consistent_registry, reachable_consistent. Qed.

Lemma registry_matches_clients_witness :
  reachable pair_minus_first ∧
  nextPlayerId pair_minus_first < MAX_EXACT ∧
  (is_Some (players pair_minus_first !! "player-2") ↔
   ∃ ws s, ws ∈ clients pair_minus_first ∧
           sockets pair_minus_first !! ws = Some s ∧ ws_id s = "player-2") ∧
  clients pair_minus_first = [1%nat].
Proof.
  assert (Hr : reachable pair_minus_first) by (eexists; reflexivity).
  assert (Hlt : nextPlayerId pair_minus_first < MAX_EXACT)
    by (vm_compute; reflexivity).
  split; [exact Hr|]. split; [exact Hlt|]. split.
  - exact (registry_matches_clients pair_minus_first "player-2" Hr Hlt).
  - vm_compute. reflexivity.
Defined.

(** X2. In every reachable state in which the counter is below
    [MAX_EXACT], the entry stored under a key has that key as its [id]; the
    key is [player-n] for a number [n] the counter has passed, and the
    entry's name is [Player n]. *)
Theorem entries_carry_their_key σ key player :
  reachable σ →
  nextPlayerId σ < MAX_EXACT →
  players σ !! key = Some player →
  Player.id player = key ∧
  ∃ n, 1 ≤ n < nextPlayerId σ ∧ key = playerId_of n ∧
       Player.name player = "Player " +:+ pretty n.
Proof.
  intros Hσ Hlt Hp.
  destruct (reachable_consistent σ Hσ Hlt) as [Hcounter Hids Hreg Hent].
  destruct (Hent _ _ Hp) as [Hid Hname]. split; [done|].
  destruct (proj1 (Hreg key) (mk_is_Some _ _ Hp)) as (ws & s & _ & Hs & Hkey).
  pose proof (Hids _ _ Hs) as Hws. apply lookup_lt_Some in Hs.
  exists (1 + Z.of_nat ws). split; [lia|]. split; [congruence|].
  rewrite Hname, <- Hkey, Hws. apply playerName_of_playerId_of. lia.
Qed.

Lemma entries_carry_their_key_witness :
  reachable pair ∧
  nextPlayerId pair < MAX_EXACT ∧
  players pair !! "player-2" =
    Some (Player.mk 240 240 "#0B7D55" "Player 2" "player-2") ∧
  ∃ n, 1 ≤ n < nextPlayerId pair ∧ "player-2" = playerId_of n ∧
       "Player 2" = "Player " +:+ pretty n.
Proof.
  assert (Hr : reachable pair) by (eexists; reflexivity).
  assert (Hp : players pair !! "player-2" =
               Some (Player.mk 240 240 "#0B7D55" "Player 2" "player-2"))
    by (vm_compute; reflexivity).
  assert (Hlt : nextPlayerId pair < MAX_EXACT) by (vm_compute; reflexivity).
  split; [exact Hr|]. split; [exact Hlt|]. split; [exact Hp|].
  exact (proj2 (entries_carry_their_key pair "player-2" _ Hr Hlt Hp)).
Defined.

(** ** What an event leaves alone *)

(** Replaces the local definitions of a case by their bodies. *)
Ltac unfold_lets :=
  repeat match goal with x := _ |- _ => subst x end.

Lemma fresh_id σ :
  consistent σ → players σ !! playerId_of (nextPlayerId σ) = None.
Proof.
  intros [Hcounter Hids Hreg _]. apply eq_None_not_Some.
  intros (ws & s & _ & Hs & Hid)%Hreg.
  rewrite (Hids _ _ Hs) in Hid. apply (inj playerId_of) in Hid.
  apply lookup_lt_Some in Hs. lia.
Qed.

(** X3. In every reachable state in which the counter is below
    [MAX_EXACT], the id the next connect will use is not in the registry, so
    a connect adds its player without replacing anyone: every entry present
    before is present, unchanged, after. *)
Theorem connect_never_overwrites σ playerColor key player :
  reachable σ →
  nextPlayerId σ < MAX_EXACT →
  players σ !! key = Some player →
  players σ !! playerId_of (nextPlayerId σ) = None ∧
  players (state_of (step (connection playerColor) σ)) !! key = Some player.
Proof.
  intros Hσ Hlt Hp.
  pose proof (fresh_id σ (reachable_consistent σ Hσ Hlt)) as Hfresh.
  split; [done|]. rewrite step_connection.
  cbn [state_of players connected with_new_socket with_players].
  rewrite lookup_insert_ne; [done|]. congruence.
Qed.

Lemma connect_never_overwrites_witness :
  reachable alone ∧
  nextPlayerId alone < MAX_EXACT ∧
  players alone !! "player-1" =
    Some (Player.mk 240 240 "#3FA2C1" "Player 1" "player-1") ∧
  players (state_of (step (connection "#0B7D55") alone)) !! "player-1" =
    Some (Player.mk 240 240 "#3FA2C1" "Player 1" "player-1").
Proof.
  assert (Hr : reachable alone) by (eexists; reflexivity).
  assert (Hp : players alone !! "player-1" =
               Some (Player.mk 240 240 "#3FA2C1" "Player 1" "player-1"))
    by (vm_compute; reflexivity).
  assert (Hlt : nextPlayerId alone < MAX_EXACT) by (vm_compute; reflexivity).
  split; [exact Hr|]. split; [exact Hlt|]. split; [exact Hp|].
  exact (proj2 (connect_never_overwrites alone "#0B7D55" "player-1" _
                  Hr Hlt Hp)).
Defined.

(** X4. While the counter is below [MAX_EXACT], no event changes a
    player's [id], [color] or [name]: in a reachable state, an entry that is
    in the registry before and after an event has the same three fields;
    only [x] and [y] can differ, and only after a ['message'] event of the
    socket that carries the entry's key. *)
Theorem identity_is_immutable σ ev key player player' :
  reachable σ →
  nextPlayerId σ < MAX_EXACT →
  players σ !! key = Some player →
  players (state_of (step ev σ)) !! key = Some player' →
  Player.id player' = Player.id player ∧
  Player.color player' = Player.color player ∧
  Player.name player' = Player.name player ∧
  (player' ≠ player →
   ∃ ws data s, ev = message ws data ∧ sockets σ !! ws = Some s ∧
                ws_id s = key).
Proof.
  intros Hσ Hlt Hp Hp'.
  pose proof (fresh_id σ (reachable_consistent σ Hσ Hlt)) as Hfresh.
  destruct (step_has_shape ev σ)
    as [playerColor| | |ws data s player0 d Hs Hp0|ws|ws s Hs];
    unfold_lets;
    cbn [state_of players connected relocated disconnected with_players
         with_new_socket with_nextPlayerId with_readyState without_client]
      in Hp'.
  - rewrite lookup_insert_ne in Hp' by congruence.
    assert (player' = player) as -> by congruence. done.
  - assert (player' = player) as -> by congruence. done.
  - assert (player' = player) as -> by congruence. done.
  - destruct (decide (ws_id s = key)) as [<-|Hne].
    + rewrite lookup_insert_eq in Hp'. injection Hp' as <-.
      assert (player0 = player) as -> by congruence.
      repeat split; try done. intros _. by exists ws, data, s.
    + rewrite lookup_insert_ne in Hp' by done.
      assert (player' = player) as -> by congruence. done.
  - assert (player' = player) as -> by congruence. done.
  - apply lookup_delete_Some in Hp' as [_ Hp'].
    assert (player' = player) as -> by congruence. done.
Qed.

Lemma identity_is_immutable_witness :
  reachable pair ∧
  nextPlayerId pair < MAX_EXACT ∧
  players pair !! "player-2" =
    Some (Player.mk 240 240 "#0B7D55" "Player 2" "player-2") ∧
  players (state_of (step (message 1%nat (movement_frame "w")) pair))
    !! "player-2" = Some (Player.mk 240 235 "#0B7D55" "Player 2" "player-2") ∧
  Player.color (Player.mk 240 235 "#0B7D55" "Player 2" "player-2") =
  Player.color (Player.mk 240 240 "#0B7D55" "Player 2" "player-2").
Proof.
  assert (Hr : reachable pair) by (eexists; reflexivity).
  assert (Hp : players pair !! "player-2" =
               Some (Player.mk 240 240 "#0B7D55" "Player 2" "player-2"))
    by (vm_compute; reflexivity).
  assert (Hp' : players (state_of (step (message 1%nat (movement_frame "w"))
                                        pair)) !! "player-2" =
                Some (Player.mk 240 235 "#0B7D55" "Player 2" "player-2"))
    by (vm_compute; reflexivity).
  assert (Hlt : nextPlayerId pair < MAX_EXACT) by (vm_compute; reflexivity).
  split; [exact Hr|]. split; [exact Hlt|]. split; [exact Hp|].
  split; [exact Hp'|].
  exact (proj1 (proj2 (identity_is_immutable pair _ "player-2" _ _
                         Hr Hlt Hp Hp'))).
Defined.

(** ** Who is written to *)

Lemma new_socket_is_open playerColor σ :
  length (sockets σ) ∈ open_clients (connected playerColor σ).
Proof.
  apply list_elem_of_filter. split.
  - unfold is_open. cbn [sockets connected with_new_socket with_players
                         with_nextPlayerId].
    by rewrite list_lookup_middle.
  - cbn. apply elem_of_app. right. by apply list_elem_of_singleton.
Qed.

Lemma Forall_to_all (P : Send → Prop) cs msg :
  Forall (λ c, P (c, msg)) cs → Forall P (to_all cs msg).
Proof. intros H. unfold to_all. by apply Forall_fmap. Qed.

Lemma step_recipients_open ev σ :
  Forall (λ frame, frame.1 ∈ open_clients (state_of (step ev σ)))
         (sent (step ev σ)).
Proof.
  destruct (step_has_shape ev σ)
    as [playerColor| | |ws data s player0 d Hs Hp0|ws|ws s Hs];
    cbn [state_of sent]; try by constructor.
  - unfold welcome. cbn zeta.
    repeat (apply Forall_cons; split; [apply new_socket_is_open|]).
    apply Forall_to_all, Forall_forall. cbn. intros c Hc.
    by apply list_elem_of_filter in Hc as [_ Hc].
  - apply Forall_to_all, Forall_forall. by intros c Hc.
  - apply Forall_to_all, Forall_forall. by intros c Hc.
Qed.

(** X5. Every frame an event sends goes to a member of [wss.clients] whose
    [readyState] is [OPEN] when the event is over: nothing is ever written
    to a socket that is closing, closed or unknown. *)
Theorem frames_go_to_open_clients ev σ :
  Forall (λ frame, frame.1 ∈ open_clients (state_of (step ev σ)))
         (sent (step ev σ)).
Proof. apply step_recipients_open. Qed.

(** X6. The socket that closes is sent nothing by its own ['close']
    event: [playerLeft] goes to the others only. *)
Theorem departing_socket_gets_nothing ws σ :
  Forall (λ frame, frame.1 ≠ ws) (sent (step (close ws) σ)).
Proof.
  destruct (sockets σ !! ws) as [s|] eqn:Hs.
  - rewrite (step_close _ _ _ Hs). cbn [sent].
    rewrite open_clients_disconnected.
    apply Forall_to_all, Forall_forall. cbn. intros c Hc.
    by apply list_elem_of_filter in Hc as [Hc _].
  - cbn [step]. rewrite listener_absent by done. constructor.
Qed.

(** X7. Whether the ['message'] listener raises depends on the frame
    alone, not on the state or the sender.  It raises on [null], on objects
    of type ['chat'], and on objects whose type is not ['movement'] and
    cannot be printed; and on a frame whose type is [flat] it raises on
    these only.  A movement frame never raises, whatever its direction.
    When the listener raises it has changed nothing and sent nothing. *)
Theorem listener_raises_iff ws_id message σ :
  (faulty message = true → ∃ e, onMessage ws_id message σ = Throw e σ []) ∧
  (flat_type message = true →
   raised (onMessage ws_id message σ) = faulty message ∧
   (faulty message = false →
    ∃ σ' out, onMessage ws_id message σ = Normal tt σ' out)) ∧
  (∀ props, property props "type" = JString "movement" →
            faulty (json (JObject props)) = false ∧
            flat_type (json (JObject props)) = true).
Proof.
  assert (Hboth : raised (onMessage ws_id message σ) = faulty message ∧
            (if faulty message
             then ∃ e, onMessage ws_id message σ = Throw e σ []
             else ∃ σ' out, onMessage ws_id message σ = Normal tt σ' out)).
  { destruct message as [raw|v].
    { rewrite onMessage_malformed. cbn. eauto. }
    destruct v as [| |b|n|str|elems|props];
      try (rewrite onMessage_primitive by done; cbn; eauto);
      try (cbn; eauto; fail).
    rewrite onMessage_object. cbn [faulty]. cbn zeta.
    destruct (strict_eq _ "movement"); cbn [negb andb].
    - destruct (players σ !! ws_id) as [player|] eqn:Hp.
      + pose proof (case_movement_present _ props _ _ Hp) as ->.
        destruct (_ || _); cbn; eauto.
      + rewrite case_movement_absent by done. cbn. eauto.
    - destruct (strict_eq _ "chat"); cbn [orb].
      + rewrite case_chat_uninitialized. cbn. eauto.
      + unfold template. destruct (ToString_raises _); cbn; eauto. }
  destruct Hboth as [Hraised Hshape]. split; [|split].
  - intros Hf. by rewrite Hf in Hshape.
  - intros _. split; [done|]. intros Hf. by rewrite Hf in Hshape.
  - intros props Ht. cbn [faulty flat_type]. rewrite Ht. done.
Qed.

Lemma listener_raises_iff_witness :
  faulty (json (JObject [("type", JArray [JObject [("toString", JNumber "1")]])]))
    = true ∧
  flat_type (json (JObject [("type", JArray [JObject [("toString", JNumber "1")]])]))
    = true ∧
  ∃ e, onMessage "player-1"
         (json (JObject [("type", JArray [JObject [("toString", JNumber "1")]])]))
         alone = Throw e alone [].
Proof.
  split; [reflexivity|]. split; [reflexivity|].
  exact (proj1 (listener_raises_iff "player-1"
           (json (JObject [("type",
                            JArray [JObject [("toString", JNumber "1")]])]))
           alone) eq_refl).
Defined.

(** ** Movement *)

(** X8. For every player in the registry and every movement frame, if the
    resolved position differs from the current one, the entry is updated to
    it and [playerMoved] with the sender's id and the new coordinates goes to
    every open client. *)
Theorem moving_is_broadcast σ ws_id player props :
  players σ !! ws_id = Some player →
  property props "type" = JString "movement" →
  resolve (property props "direction") player ≠
    (Player.x player, Player.y player) →
  let player' := step_of (property props "direction") player in
  let σ' := relocated ws_id player' σ in
  onMessage ws_id (json (JObject props)) σ =
    Normal tt σ' (to_all (open_clients σ')
                    (playerMoved ws_id (Player.x player') (Player.y player'))) ∧
  players σ' !! ws_id = Some player' ∧
  Player.x player' = (resolve (property props "direction") player).1 ∧
  Player.y player' = (resolve (property props "direction") player).2.
Proof.
  intros Hp Ht Hr player' σ'. split; [|split; [apply lookup_insert_eq|done]].
  rewrite onMessage_movement by done.
  pose proof (case_movement_present _ props _ _ Hp) as ->. cbn zeta.
  fold player'.
  destruct (bool_decide _ || bool_decide _) eqn:Hchanged; [done|].
  apply orb_false_iff in Hchanged as [Hx Hy].
  apply bool_decide_eq_false in Hx. apply dec_stable in Hx.
  apply bool_decide_eq_false in Hy. apply dec_stable in Hy.
  exfalso. apply Hr. unfold player', step_of in Hx, Hy. cbn in Hx, Hy.
  destruct (resolve _ player) as [x' y']. cbn in *. congruence.
Qed.

Lemma moving_is_broadcast_witness :
  players pair !! "player-2" =
    Some (Player.mk 240 240 "#0B7D55" "Player 2" "player-2") ∧
  onMessage "player-2" (movement_frame "s") pair =
    Normal tt
      (relocated "player-2"
         (Player.mk 240 245 "#0B7D55" "Player 2" "player-2") pair)
      [(0%nat, playerMoved "player-2" 240 245);
       (1%nat, playerMoved "player-2" 240 245)].
Proof.
  assert (Hp : players pair !! "player-2" =
               Some (Player.mk 240 240 "#0B7D55" "Player 2" "player-2"))
    by (vm_compute; reflexivity).
  split; [exact Hp|].
  refine (proj1 (moving_is_broadcast pair "player-2" _
                   [("type", JString "movement"); ("direction", JString "s")]
                   Hp eq_refl _)).
  vm_compute. discriminate.
Defined.

(** X9. A movement moves a player inside the world on one axis only, and
    by at most [MOVEMENT_SPEED]. *)
Theorem resolve_moves_one_step direction player :
  in_world player →
  let x' := (resolve direction player).1 in
  let y' := (resolve direction player).2 in
  (x' = Player.x player ∨ y' = Player.y player) ∧
  Z.abs (x' - Player.x player) ≤ MOVEMENT_SPEED ∧
  Z.abs (y' - Player.y player) ≤ MOVEMENT_SPEED.
Proof.
  intros [Hx Hy]. cbv zeta.
  pose proof (resolve_cases direction player) as Hr. cbn zeta in Hr.
  unfold WORLD_SIZE, PLAYER_SIZE, MOVEMENT_SPEED in *.
  repeat (apply elem_of_cons in Hr as [->|Hr]); [..|by apply elem_of_nil in Hr];
    cbn [fst snd]; lia.
Qed.

Lemma resolve_moves_one_step_witness :
  in_world (Player.mk 478 0 "#3FA2C1" "Player 1" "player-1") ∧
  resolve (JString "d") (Player.mk 478 0 "#3FA2C1" "Player 1" "player-1")
    = (480, 0) ∧
  Z.abs (480 - 478) ≤ MOVEMENT_SPEED.
Proof.
  assert (Hw : in_world (Player.mk 478 0 "#3FA2C1" "Player 1" "player-1"))
    by (unfold in_world; cbn; unfold WORLD_SIZE, PLAYER_SIZE; lia).
  split; [exact Hw|]. split; [reflexivity|].
  exact (proj1 (proj2 (resolve_moves_one_step (JString "d") _ Hw))).
Defined.

Lemma step_movement_moves σ ws s player direction :
  sockets σ !! ws = Some s →
  players σ !! ws_id s = Some player →
  resolve (JString direction) player ≠ (Player.x player, Player.y player) →
  ∃ out, step (message ws (movement_frame direction)) σ =
         Normal tt (relocated (ws_id s) (step_of (JString direction) player) σ)
                out.
Proof.
  intros Hs Hp Hr. cbn [step]. rewrite (listener_present _ _ _ _ Hs).
  unfold movement_frame. rewrite onMessage_movement by done.
  pose proof (case_movement_present _
                [("type", JString "movement");
                 ("direction", JString direction)] _ _ Hp) as ->.
  cbn zeta.
  change (property _ "direction") with (JString direction).
  destruct (bool_decide _ || bool_decide _) eqn:Hchanged; [by eexists|].
  apply orb_false_iff in Hchanged as [Hx Hy].
  apply bool_decide_eq_false in Hx. apply dec_stable in Hx.
  apply bool_decide_eq_false in Hy. apply dec_stable in Hy.
  exfalso. apply Hr. unfold step_of in Hx, Hy. cbn in Hx, Hy.
  destruct (resolve _ player) as [x' y']. cbn in *. congruence.
Qed.

Lemma there_and_back σ ws s player there back :
  sockets σ !! ws = Some s →
  players σ !! ws_id s = Some player →
  resolve (JString there) player ≠ (Player.x player, Player.y player) →
  resolve (JString back) (step_of (JString there) player) =
    (Player.x player, Player.y player) →
  state_of (exec [message ws (movement_frame there);
                  message ws (movement_frame back)] σ) = σ.
Proof.
  intros Hs Hp Hthere Hback.
  destruct (step_movement_moves σ ws s player there Hs Hp Hthere) as [out1 E1].
  destruct (exec_cons_Normal _ [message ws (movement_frame back)] _ _ _ E1)
    as [-> _].
  set (player1 := step_of (JString there) player) in *.
  set (σ1 := relocated (ws_id s) player1 σ) in *.
  assert (Hp1 : players σ1 !! ws_id s = Some player1) by apply lookup_insert_eq.
  assert (Hmoved : resolve (JString back) player1 ≠
                   (Player.x player1, Player.y player1)).
  { rewrite Hback. intros [= Hx Hy]. apply Hthere.
    unfold player1, step_of in Hx, Hy. cbn in Hx, Hy.
    destruct (resolve _ player) as [x' y']. cbn in *. congruence. }
  destruct (step_movement_moves σ1 ws s player1 back Hs Hp1 Hmoved) as [out2 E2].
  destruct (exec_cons_Normal _ [] _ _ _ E2) as [-> _]. cbn [exec state_of].
  unfold step_of at 1. rewrite Hback. cbn [fst snd].
  unfold σ1, relocated, with_players, moved.
  destruct σ as [registry n socks cs], player as [x y c nm i].
  cbn in *. f_equal. rewrite insert_insert_eq. by apply insert_id.
Qed.

(** X10. Opposite movements cancel: for a player at least one step away
    from every wall, [w] then [s], [s] then [w], [a] then [d] and [d] then
    [a] from its socket bring the whole server state back to what it was. *)
Theorem opposite_moves_cancel σ ws s player :
  sockets σ !! ws = Some s →
  players σ !! ws_id s = Some player →
  MOVEMENT_SPEED ≤ Player.x player ≤ WORLD_SIZE - PLAYER_SIZE - MOVEMENT_SPEED →
  MOVEMENT_SPEED ≤ Player.y player ≤ WORLD_SIZE - PLAYER_SIZE - MOVEMENT_SPEED →
  Forall (λ pair, state_of (exec [message ws (movement_frame pair.1);
                                  message ws (movement_frame pair.2)] σ) = σ)
         [("w", "s"); ("s", "w"); ("a", "d"); ("d", "a")].
Proof.
  unfold WORLD_SIZE, PLAYER_SIZE, MOVEMENT_SPEED. intros Hs Hp Hx Hy.
  assert (Rw : ∀ p, resolve (JString "w") p =
                    (Player.x p, Z.max 0 (Player.y p - 5))) by reflexivity.
  assert (Ra : ∀ p, resolve (JString "a") p =
                    (Z.max 0 (Player.x p - 5), Player.y p)) by reflexivity.
  assert (Rs : ∀ p, resolve (JString "s") p =
                    (Player.x p, Z.min (500 - 20) (Player.y p + 5)))
    by reflexivity.
  assert (Rd : ∀ p, resolve (JString "d") p =
                    (Z.min (500 - 20) (Player.x p + 5), Player.y p))
    by reflexivity.
  repeat (apply Forall_cons_2;
          [cbn [fst snd]; apply (there_and_back σ ws s player _ _ Hs Hp);
           unfold step_of; rewrite ?Rw, ?Ra, ?Rs, ?Rd;
           cbn [fst snd moved Player.x Player.y];
           [intros [=]; lia | f_equal; lia]|]).
  apply Forall_nil_2.
Qed.

Lemma opposite_moves_cancel_witness :
  sockets alone !! 0%nat = Some {| ws_id := "player-1"; readyState := OPEN |} ∧
  players alone !! "player-1" =
    Some (Player.mk 240 240 "#3FA2C1" "Player 1" "player-1") ∧
  state_of (exec [message 0%nat (movement_frame "a");
                  message 0%nat (movement_frame "d")] alone) = alone.
Proof.
  assert (Hs : sockets alone !! 0%nat =
               Some {| ws_id := "player-1"; readyState := OPEN |})
    by (vm_compute; reflexivity).
  assert (Hp : players alone !! "player-1" =
               Some (Player.mk 240 240 "#3FA2C1" "Player 1" "player-1"))
    by (vm_compute; reflexivity).
  split; [exact Hs|]. split; [exact Hp|].
  assert (Hx : MOVEMENT_SPEED ≤ 240 ≤ WORLD_SIZE - PLAYER_SIZE - MOVEMENT_SPEED)
    by (unfold WORLD_SIZE, PLAYER_SIZE, MOVEMENT_SPEED; lia).
  pose proof (opposite_moves_cancel alone 0%nat _ _ Hs Hp Hx Hx) as H.
  apply Forall_cons in H as [_ H]. apply Forall_cons in H as [_ H].
  apply Forall_cons in H as [H _]. exact H.
Defined.

(** ** Clients hear of every change *)

(** X11. Whenever an event changes the registry, every client that is open
    when the event is over is sent a frame by that event. *)
Theorem registry_changes_are_announced ev σ :
  players (state_of (step ev σ)) ≠ players σ →
  Forall (λ client, ∃ msg, (client, msg) ∈ sent (step ev σ))
         (open_clients (state_of (step ev σ))).
Proof.
  destruct (step_has_shape ev σ)
    as [playerColor| | |ws data s player0 d Hs Hp0|ws|ws s Hs];
    cbn [state_of sent]; intros Hchange; try done.
  - apply Forall_forall. intros c Hc.
    destruct (decide (c = length (sockets σ))) as [->|Hne].
    + eexists. unfold welcome. cbn zeta. apply elem_of_cons. by left.
    + exists (playerJoined (Some (new_player (nextPlayerId σ) playerColor))).
      unfold welcome. cbn zeta. do 2 (apply elem_of_cons; right).
      apply (list_elem_of_fmap_2 (λ c, (c, playerJoined _))).
      by apply list_elem_of_filter.
  - apply Forall_forall. intros c Hc. eexists.
    by apply (list_elem_of_fmap_2 (λ c, (c, playerMoved _ _ _))).
  - apply Forall_forall. intros c Hc. eexists.
    by apply (list_elem_of_fmap_2 (λ c, (c, playerLeft _))).
Qed.

Lemma registry_changes_are_announced_witness :
  players (state_of (step (close 0%nat) pair)) ≠ players pair ∧
  open_clients (state_of (step (close 0%nat) pair)) = [1%nat] ∧
  ∃ msg, (1%nat, msg) ∈ sent (step (close 0%nat) pair).
Proof.
  assert (Hne : players (state_of (step (close 0%nat) pair)) ≠ players pair).
  { intros H. apply (f_equal (λ m, m !! "player-1")) in H.
    vm_compute in H. discriminate. }
  assert (Ho : open_clients (state_of (step (close 0%nat) pair)) = [1%nat])
    by (vm_compute; reflexivity).
  split; [exact Hne|]. split; [exact Ho|].
  pose proof (registry_changes_are_announced (close 0%nat) pair Hne) as H.
  rewrite Ho in H. apply Forall_cons in H as [H _]. exact H.
Defined.

(** ** Colours *)

Lemma letter_hex k :
  (k < 16)%nat → ∃ c, letter k = String c EmptyString ∧ is_hex c = true.
Proof.
  intros Hk.
  do 16 (destruct k as [|k]; [eexists; split; reflexivity|]). lia.
Qed.

Lemma letter_inj a b :
  (a < 16)%nat → (b < 16)%nat → letter a = letter b → a = b.
Proof.
  intros Ha Hb.
  do 16 (destruct a as [|a];
         [do 16 (destruct b as [|b];
                 [first [reflexivity | vm_compute; discriminate]|]); lia|]).
  lia.
Qed.

Lemma getRandomColor_unfold draws :
  getRandomColor draws =
  ((((("#" +:+ letter (draws 0%nat)) +:+ letter (draws 1%nat))
       +:+ letter (draws 2%nat)) +:+ letter (draws 3%nat))
     +:+ letter (draws 4%nat)) +:+ letter (draws 5%nat).
Proof. reflexivity. Qed.

Lemma getRandomColor_chars draws :
  (∀ i, (i < 6)%nat → (draws i < 16)%nat) →
  ∃ c0 c1 c2 c3 c4 c5,
    getRandomColor draws =
      String "#" (String c0 (String c1 (String c2 (String c3 (String c4
        (String c5 EmptyString)))))) ∧
    Forall2 (λ i c, letter (draws i) = String c EmptyString ∧ is_hex c = true)
            [0; 1; 2; 3; 4; 5]%nat [c0; c1; c2; c3; c4; c5].
Proof.
  intros Hd.
  destruct (letter_hex (draws 0%nat)) as (c0 & E0 & H0); [apply Hd; lia|].
  destruct (letter_hex (draws 1%nat)) as (c1 & E1 & H1); [apply Hd; lia|].
  destruct (letter_hex (draws 2%nat)) as (c2 & E2 & H2); [apply Hd; lia|].
  destruct (letter_hex (draws 3%nat)) as (c3 & E3 & H3); [apply Hd; lia|].
  destruct (letter_hex (draws 4%nat)) as (c4 & E4 & H4); [apply Hd; lia|].
  destruct (letter_hex (draws 5%nat)) as (c5 & E5 & H5); [apply Hd; lia|].
  exists c0, c1, c2, c3, c4, c5. split.
  - rewrite getRandomColor_unfold, E0, E1, E2, E3, E4, E5. reflexivity.
  - repeat (constructor; [done|]). constructor.
Qed.

(** X12. When every draw is an index into [letters], as
    [Math.floor (Math.random () * 16)] is, [getRandomColor] returns [#]
    followed by exactly six characters of [0123456789ABCDEF]. *)
Theorem getRandomColor_is_hex draws :
  (∀ i, (i < 6)%nat → (draws i < 16)%nat) →
  hex_color (getRandomColor draws) = true ∧
  String.length (getRandomColor draws) = 7%nat.
Proof.
  intros Hd.
  destruct (getRandomColor_chars draws Hd)
    as (c0 & c1 & c2 & c3 & c4 & c5 & -> & Hc).
  split; [|reflexivity].
  repeat match goal with
         | H : Forall2 _ (_ :: _) (_ :: _) |- _ =>
             apply Forall2_cons in H as [[_ ?] H]
         end.
  cbn [hex_color String.length String.list_ascii_of_string forallb].
  rewrite !bool_decide_eq_true_2 by done.
  repeat match goal with H : is_hex _ = true |- _ => rewrite H; clear H end.
  reflexivity.
Qed.

Lemma getRandomColor_is_hex_witness :
  (∀ i, (i < 6)%nat → (Nat.modulo (7 * i + 3) 16 < 16)%nat) ∧
  getRandomColor (λ i, Nat.modulo (7 * i + 3) 16) = "#3A18F6" ∧
  hex_color "#3A18F6" = true.
Proof.
  assert (Hd : ∀ i, (i < 6)%nat → (Nat.modulo (7 * i + 3) 16 < 16)%nat)
    by (intros i _; apply Nat.mod_upper_bound; lia).
  assert (He : getRandomColor (λ i, Nat.modulo (7 * i + 3) 16) = "#3A18F6")
    by (vm_compute; reflexivity).
  split; [exact Hd|]. split; [exact He|].
  rewrite <- He. exact (proj1 (getRandomColor_is_hex _ Hd)).
Defined.

(** X13. Different draws give different colours: two runs of
    [getRandomColor] whose draws are indices into [letters] return the same
    string only if all six draws agree. *)
Theorem getRandomColor_injective draws draws' :
  (∀ i, (i < 6)%nat → (draws i < 16)%nat) →
  (∀ i, (i < 6)%nat → (draws' i < 16)%nat) →
  getRandomColor draws = getRandomColor draws' →
  ∀ i, (i < 6)%nat → draws i = draws' i.
Proof.
  intros Hd Hd' Heq.
  destruct (getRandomColor_chars draws Hd)
    as (c0 & c1 & c2 & c3 & c4 & c5 & E & Hc).
  destruct (getRandomColor_chars draws' Hd')
    as (c0' & c1' & c2' & c3' & c4' & c5' & E' & Hc').
  rewrite E, E' in Heq. injection Heq as <- <- <- <- <- <-.
  repeat match goal with
         | H : Forall2 _ (_ :: _) (_ :: _) |- _ =>
             apply Forall2_cons in H as [[? _] H]
         end.
  intros i Hi.
  do 6 (destruct i as [|i];
        [apply letter_inj; [by apply Hd|by apply Hd'|congruence]|]).
  lia.
Qed.

Lemma getRandomColor_injective_witness :
  getRandomColor (λ i, Nat.modulo (7 * i + 3) 16) =
  getRandomColor (λ i, Nat.modulo (23 * i + 19) 16) ∧
  Nat.modulo (7 * 4 + 3) 16 = Nat.modulo (23 * 4 + 19) 16.
Proof.
  assert (Hd : ∀ i, (i < 6)%nat → (Nat.modulo (7 * i + 3) 16 < 16)%nat)
    by (intros i _; apply Nat.mod_upper_bound; lia).
  assert (Hd' : ∀ i, (i < 6)%nat → (Nat.modulo (23 * i + 19) 16 < 16)%nat)
    by (intros i _; apply Nat.mod_upper_bound; lia).
  assert (He : getRandomColor (λ i, Nat.modulo (7 * i + 3) 16) =
               getRandomColor (λ i, Nat.modulo (23 * i + 19) 16))
    by (vm_compute; reflexivity).
  split; [exact He|].
  exact (getRandomColor_injective _ _ Hd Hd' He 4%nat ltac:(lia)).
Defined.

Lemma colors_step ev σ key player :
  players (state_of (step ev σ)) !! key = Some player →
  (∃ player0, players σ !! key = Some player0 ∧
              Player.color player = Player.color player0) ∨
  (ev = connection (Player.color player) ∧
   key = playerId_of (nextPlayerId σ)).
Proof.
  destruct (step_has_shape ev σ)
    as [playerColor| | |ws data s player0 d Hs Hp0|ws|ws s Hs];
    unfold_lets;
    cbn [state_of players connected relocated disconnected with_players
         with_new_socket with_nextPlayerId with_readyState without_client];
    intros Hp; try (left; by exists player).
  - destruct (decide (playerId_of (nextPlayerId σ) = key)) as [<-|Hne].
    + rewrite lookup_insert_eq in Hp. injection Hp as <-. by right.
    + rewrite lookup_insert_ne in Hp by done. left. by exists player.
  - destruct (decide (ws_id s = key)) as [<-|Hne].
    + rewrite lookup_insert_eq in Hp. injection Hp as <-. left. by exists player0.
    + rewrite lookup_insert_ne in Hp by done. left. by exists player.
  - apply lookup_delete_Some in Hp as [_ Hp]. left. by exists player.
Qed.

Lemma length_colors_of evs :
  Z.of_nat (length (colors_of evs)) = connections evs.
Proof.
  induction evs as [|ev evs IH]; [done|].
  rewrite connections_cons, <- IH.
  destruct ev; cbn [colors_of omap list_omap is_connection length];
    fold (colors_of evs); cbn [length]; lia.
Qed.

Lemma colors_exec evs σ key player :
  nextPlayerId σ ≤ MAX_EXACT →
  nextPlayerId σ + connections evs ≤ MAX_EXACT + 1 →
  players (state_of (exec evs σ)) !! key = Some player →
  (∃ player0, players σ !! key = Some player0 ∧
              Player.color player = Player.color player0) ∨
  (∃ j, key = playerId_of (nextPlayerId σ + Z.of_nat j) ∧
        colors_of evs !! j = Some (Player.color player)).
Proof.
  revert σ. induction evs as [|ev evs IH]; intros σ Hle Hbound Hp.
  { left. by exists player. }
  rewrite connections_cons in Hbound.
  pose proof (connections_nonneg evs) as Hnn.
  pose proof (length_colors_of evs) as Hlen.
  pose proof (step_counter ev σ) as Hc.
  assert (Hhere : ∀ p, players (state_of (step ev σ)) !! key = Some p →
            (∃ player0, players σ !! key = Some player0 ∧
                        Player.color p = Player.color player0) ∨
            (∃ j, key = playerId_of (nextPlayerId σ + Z.of_nat j) ∧
                  colors_of (ev :: evs) !! j = Some (Player.color p))).
  { intros p [H|[-> ->]]%colors_step; [by left|right].
    exists 0%nat. split; [f_equal; lia|done]. }
  destruct (step ev σ) as [[] σ1 out1|e σ1 out1] eqn:E; cbn [state_of] in *.
  - destruct (exec_cons_Normal ev evs _ _ _ E) as [Hst _]. rewrite Hst in Hp.
    destruct (is_connection ev) eqn:Hev.
    + destruct ev as [playerColor| | | |]; try done.
      destruct (decide (nextPlayerId σ < MAX_EXACT)) as [Hlt|Hge].
      * rewrite increment_below in Hc by done.
        destruct (IH σ1 ltac:(lia) ltac:(lia) Hp)
          as [(player1 & Hp1 & Hcol)|(j & -> & Hj)].
        -- rewrite Hcol. by apply Hhere.
        -- right. exists (S j). split; [f_equal; lia|done].
      * assert (nextPlayerId σ = MAX_EXACT) as Hmax by lia.
        rewrite Hmax, increment_at_MAX_EXACT in Hc.
        destruct (IH σ1 ltac:(lia) ltac:(lia) Hp)
          as [(player1 & Hp1 & Hcol)|(j & _ & Hj)].
        -- rewrite Hcol. by apply Hhere.
        -- apply lookup_lt_Some in Hj. lia.
    + destruct (IH σ1 ltac:(lia) ltac:(lia) Hp)
        as [(player1 & Hp1 & Hcol)|(j & -> & Hj)].
      * rewrite Hcol. by apply Hhere.
      * right. exists j. rewrite Hc. split; [done|].
        by destruct ev.
  - rewrite (exec_cons_Throw ev evs _ _ _ _ E) in Hp. by apply Hhere.
Qed.

(** X14. In every run with at most [MAX_EXACT] connects, the colour of a
    player in the registry is the colour handed to the connect that created
    it: the entry under [player-n] has the colour of the [n]-th
    ['connection'] event. *)
Theorem colors_are_those_of_the_connects evs key player :
  connections evs ≤ MAX_EXACT →
  players (state_of (exec evs initial)) !! key = Some player →
  ∃ j, key = playerId_of (1 + Z.of_nat j) ∧
       colors_of evs !! j = Some (Player.color player).
Proof.
  intros Hbound Hp. pose proof MAX_EXACT_pos as Hpos.
  apply colors_exec in Hp as [(player0 & Hp0 & _)|Hj]; [|done| |].
  - cbn in Hp0. by rewrite lookup_empty in Hp0.
  - change (nextPlayerId initial) with 1. lia.
  - change (nextPlayerId initial) with 1. lia.
Qed.

Lemma colors_are_those_of_the_connects_witness :
  connections [connection "#3FA2C1"; connection "#0B7D55"; close 0%nat;
               message 1%nat (movement_frame "w")] ≤ MAX_EXACT ∧
  players (state_of (exec [connection "#3FA2C1"; connection "#0B7D55";
                           close 0%nat; message 1%nat (movement_frame "w")]
                          initial)) !! "player-2" =
    Some (Player.mk 240 235 "#0B7D55" "Player 2" "player-2") ∧
  ∃ j, "player-2" = playerId_of (1 + Z.of_nat j) ∧
       colors_of [connection "#3FA2C1"; connection "#0B7D55"; close 0%nat;
                  message 1%nat (movement_frame "w")] !! j = Some "#0B7D55".
Proof.
  assert (Hle : connections [connection "#3FA2C1"; connection "#0B7D55";
                  close 0%nat; message 1%nat (movement_frame "w")]
                ≤ MAX_EXACT) by (vm_compute; discriminate).
  assert (Hp : players (state_of (exec [connection "#3FA2C1";
                 connection "#0B7D55"; close 0%nat;
                 message 1%nat (movement_frame "w")] initial)) !! "player-2" =
               Some (Player.mk 240 235 "#0B7D55" "Player 2" "player-2"))
    by (vm_compute; reflexivity).
  split; [exact Hle|]. split; [exact Hp|].
  exact (colors_are_those_of_the_connects _ "player-2" _ Hle Hp).
Defined.

(** ** What a run sends *)

Lemma exec_sent_Forall (P : Send → Prop) :
  (∀ ev σ, Forall P (sent (step ev σ))) →
  ∀ evs σ, Forall P (sent (exec evs σ)).
Proof.
  intros Hstep evs. induction evs as [|ev evs IH]; intros σ; [constructor|].
  specialize (Hstep ev σ).
  destruct (step ev σ) as [[] σ1 out1|e σ1 out1] eqn:E; cbn [sent] in Hstep.
  - destruct (exec_cons_Normal ev evs _ _ _ E) as [_ ->].
    apply Forall_app. split; [done|apply IH].
  - by rewrite (exec_cons_Throw ev evs _ _ _ _ E).
Qed.

(** X15. No run ever sends a [chat] envelope: the only frames the server
    writes are [init], [currentPlayers], [playerJoined], [playerMoved] and
    [playerLeft]. *)
Theorem no_chat_envelope_is_sent evs σ :
  Forall (λ frame, is_greeting frame.2 = true ∨
                   (∃ player, frame.2 = playerJoined player) ∨
                   (∃ playerId x y, frame.2 = playerMoved playerId x y) ∨
                   (∃ playerId, frame.2 = playerLeft playerId))
         (sent (exec evs σ)).
Proof.
  apply exec_sent_Forall. clear. intros ev σ.
  destruct (step_has_shape ev σ)
    as [playerColor| | |ws data s player0 d Hs Hp0|ws|ws s Hs];
    cbn [sent]; try by constructor.
  - unfold welcome. cbn zeta.
    do 2 (apply Forall_cons; split; [by left|]).
    apply Forall_to_all, Forall_forall. intros c _. right. left. by eexists.
  - apply Forall_to_all, Forall_forall. intros c _. right. right. left.
    by do 3 eexists.
  - apply Forall_to_all, Forall_forall. intros c _. right. right. right.
    by eexists.
Qed.

(** ** The order of a session *)

Lemma inbox_app client out1 out2 :
  inbox client (out1 ++ out2) = inbox client out1 ++ inbox client out2.
Proof. apply omap_app. Qed.

Lemma inbox_to_all_absent client cs msg :
  client ∉ cs → inbox client (to_all cs msg) = [].
Proof.
  unfold inbox, to_all. induction cs as [|c cs IH]; [done|].
  intros [Hne Hin]%not_elem_of_cons. cbn [fmap list_fmap omap list_omap].
  rewrite bool_decide_eq_false_2 by done. by apply IH.
Qed.

Lemma inbox_to_all_plain client cs msg :
  is_greeting msg = false →
  Forall (λ m, is_greeting m = false) (inbox client (to_all cs msg)).
Proof.
  intros H. unfold inbox, to_all. induction cs as [|c cs IH]; [constructor|].
  cbn [fmap list_fmap omap list_omap].
  case_bool_decide; [by constructor|done].
Qed.

Lemma open_clients_valid σ c :
  handles_valid σ → c ∈ open_clients σ → (c < length (sockets σ))%nat.
Proof.
  intros Hv [_ Hc]%list_elem_of_filter.
  by apply (proj1 (Forall_forall _ _) Hv).
Qed.

Lemma handles_valid_step ev σ :
  handles_valid σ → handles_valid (state_of (step ev σ)).
Proof.
  unfold handles_valid. intros Hv.
  destruct (step_has_shape ev σ)
    as [playerColor| | |ws data s player0 d Hs Hp0|ws|ws s Hs];
    unfold_lets; cbn [state_of]; try done.
  - cbn. rewrite length_app. cbn. apply Forall_app. split.
    + eapply Forall_impl; [done|]. cbn. lia.
    + repeat constructor. lia.
  - cbn. by rewrite length_alter.
  - cbn. rewrite length_alter. apply Forall_forall.
    intros c [_ Hc]%list_elem_of_filter.
    by apply (proj1 (Forall_forall _ _) Hv).
Qed.

Lemma length_sockets_step ev σ :
  length (sockets (state_of (step ev σ))) =
  (length (sockets σ) + (if is_connection ev then 1 else 0))%nat.
Proof.
  destruct (step_has_shape ev σ)
    as [playerColor|ev Hev| |ws data s player0 d Hs Hp0|ws|ws s Hs];
    unfold_lets; cbn [state_of is_connection]; cbn;
    rewrite ?length_app, ?length_alter, ?Hev; cbn; lia.
Qed.

(** A socket keeps the id it was given. *)
Lemma ws_id_step ev σ i s :
  sockets σ !! i = Some s →
  ∃ s', sockets (state_of (step ev σ)) !! i = Some s' ∧ ws_id s' = ws_id s.
Proof.
  intros Hs.
  destruct (step_has_shape ev σ)
    as [playerColor| | |ws data s0 player0 d Hs0 Hp0|ws|ws s0 Hs0];
    unfold_lets; cbn [state_of]; try by exists s.
  - exists s. split; [|done].
    cbn [sockets connected with_new_socket with_players with_nextPlayerId].
    by apply lookup_app_l_Some.
  - exists {| ws_id := ws_id s;
              readyState := if decide (ws = i) then CLOSING
                            else readyState s |}.
    split; [|done]. apply sockets_with_readyState. by exists s.
  - exists {| ws_id := ws_id s;
              readyState := if decide (ws = i) then CLOSED
                            else readyState s |}.
    split; [|done].
    cbn [sockets disconnected with_players without_client].
    apply sockets_with_readyState. by exists s.
Qed.

Lemma ws_id_exec evs σ i s :
  sockets σ !! i = Some s →
  ∃ s', sockets (state_of (exec evs σ)) !! i = Some s' ∧ ws_id s' = ws_id s.
Proof.
  revert σ s. induction evs as [|ev evs IH]; intros σ s Hs; [by exists s|].
  destruct (ws_id_step ev σ i s Hs) as (s1 & Hs1 & Hid1).
  destruct (step ev σ) as [[] σ1 out1|e σ1 out1] eqn:E; cbn [state_of] in Hs1.
  - destruct (exec_cons_Normal ev evs _ _ _ E) as [-> _].
    destruct (IH σ1 s1 Hs1) as (s' & Hs' & Hid'). exists s'.
    split; [done|congruence].
  - rewrite (exec_cons_Throw ev evs _ _ _ _ E). by exists s1.
Qed.

(** What one event writes to [client]. *)
Lemma inbox_step ev σ client :
  handles_valid σ →
  let out := sent (step ev σ) in
  let σ1 := state_of (step ev σ) in
  ((length (sockets σ1) ≤ client)%nat → inbox client out = []) ∧
  (client ≠ length (sockets σ) →
   Forall (λ m, is_greeting m = false) (inbox client out)) ∧
  (is_connection ev = true →
   ∃ s playerState,
     sockets σ1 !! length (sockets σ) = Some s ∧
     inbox (length (sockets σ)) out =
       [init (ws_id s) (Some playerState) WORLD_SIZE PLAYER_SIZE;
        currentPlayers (players σ1)] ∧
     players σ1 !! ws_id s = Some playerState).
Proof.
  intros Hv out σ1.
  pose proof (handles_valid_step ev σ Hv) as Hv1. fold σ1 in Hv1.
  pose proof (step_recipients_open ev σ) as Hopen. fold σ1 out in Hopen.
  split; [|split].
  - intros Hge. unfold inbox.
    induction out as [|[c msg] out IH]; [done|].
    apply Forall_cons in Hopen as [Hc Hopen]. cbn [omap list_omap].
    apply open_clients_valid in Hc; [|done]. cbn in Hc.
    rewrite bool_decide_eq_false_2 by lia. by apply IH.
  - intros Hne. unfold out. clear Hopen Hv1 out σ1.
    destruct (step_has_shape ev σ)
      as [playerColor| | |ws data s player0 d Hs Hp0|ws|ws s Hs];
      cbn [sent]; try by constructor.
    + unfold welcome. cbn zeta.
      rewrite inbox_app. unfold inbox at 1. cbn [omap list_omap].
      rewrite !bool_decide_eq_false_2 by done.
      by apply inbox_to_all_plain.
    + by apply inbox_to_all_plain.
    + by apply inbox_to_all_plain.
  - intros Hconn. destruct ev as [playerColor| | | |]; try done.
    unfold out, σ1. rewrite step_connection. cbn [sent state_of].
    exists {| ws_id := playerId_of (nextPlayerId σ); readyState := OPEN |},
           (new_player (nextPlayerId σ) playerColor).
    cbn [ws_id]. split; [by apply list_lookup_middle|]. split.
    + unfold welcome. cbn zeta.
      rewrite inbox_app. unfold inbox at 1. cbn [omap list_omap].
      rewrite !bool_decide_eq_true_2 by done.
      rewrite inbox_to_all_absent; [done|].
      intros [Hne _]%list_elem_of_filter. done.
    + apply lookup_insert_eq.
Qed.

Lemma inbox_exec evs σ client :
  handles_valid σ →
  ((client < length (sockets σ))%nat →
   Forall (λ m, is_greeting m = false) (inbox client (sent (exec evs σ)))) ∧
  ((length (sockets σ) ≤ client)%nat →
   inbox client (sent (exec evs σ)) = [] ∨
   ∃ s playerState snapshot rest,
     sockets (state_of (exec evs σ)) !! client = Some s ∧
     inbox client (sent (exec evs σ)) =
       init (ws_id s) (Some playerState) WORLD_SIZE PLAYER_SIZE
       :: currentPlayers snapshot :: rest ∧
     snapshot !! ws_id s = Some playerState ∧
     Forall (λ m, is_greeting m = false) rest).
Proof.
  revert σ. induction evs as [|ev evs IH]; intros σ Hv.
  { split; [constructor|by left]. }
  destruct (inbox_step ev σ client Hv) as (Hbeyond & Hplain & Hgreet).
  pose proof (handles_valid_step ev σ Hv) as Hv1.
  pose proof (length_sockets_step ev σ) as Hlen.
  assert (Hfirst : (length (sockets σ) ≤ client)%nat →
            (length (sockets (state_of (step ev σ))) ≤ client)%nat ∨
            (client = length (sockets σ) ∧ is_connection ev = true)).
  { intros Hge. rewrite Hlen. destruct (is_connection ev); [|left; lia].
    destruct (decide (client = length (sockets σ))); [by right|left; lia]. }
  destruct (step ev σ) as [[] σ1 out1|e σ1 out1] eqn:E;
    cbn [state_of sent] in *.
  - destruct (exec_cons_Normal ev evs _ _ _ E) as [Hst ->]. rewrite inbox_app.
    destruct (IH σ1 Hv1) as [IHold IHnew]. split.
    + intros Hlt. apply Forall_app. split; [apply Hplain; lia|].
      apply IHold. lia.
    + intros [Hge|[-> Hconn]]%Hfirst.
      * rewrite (Hbeyond Hge). rewrite Hst. by apply IHnew.
      * right. destruct (Hgreet Hconn) as (s & playerState & Hs & -> & Hp).
        destruct (ws_id_exec evs σ1 _ s Hs) as (s' & Hs' & Hid).
        exists s', playerState, (players σ1),
               (inbox (length (sockets σ)) (sent (exec evs σ1))).
        rewrite Hst, Hid. split; [done|]. split; [done|]. split; [done|].
        apply IHold. rewrite Hconn in Hlen. lia.
  - rewrite (exec_cons_Throw ev evs _ _ _ _ E). cbn [sent state_of]. split.
    + intros Hlt. apply Hplain. lia.
    + intros [Hge|[-> Hconn]]%Hfirst; [left; by apply Hbeyond|].
      right. destruct (Hgreet Hconn) as (s & playerState & Hs & -> & Hp).
      by exists s, playerState, (players σ1), [].
Qed.

(** X16. In every run the first frame a socket is sent is [init] with the
    id the socket carries and the player state the registry holds under it,
    the second is [currentPlayers] with a snapshot that contains that id
    with the player state of the [init], and neither kind of frame is ever
    sent to it again. *)
Theorem sessions_open_with_init evs client :
  inbox client (sent (exec evs initial)) = [] ∨
  ∃ s playerState snapshot rest,
    sockets (state_of (exec evs initial)) !! client = Some s ∧
    inbox client (sent (exec evs initial)) =
      init (ws_id s) (Some playerState) WORLD_SIZE PLAYER_SIZE
      :: currentPlayers snapshot :: rest ∧
    snapshot !! ws_id s = Some playerState ∧
    Forall (λ m, is_greeting m = false) rest.
Proof.
  apply (inbox_exec evs initial client); [constructor|cbn; lia].
Qed.
